(** * xrpSMEngine: a shallow embedding of the state machine engine

    The development follows [src/xrpSMEngine.c] and [src/xrpSMEngine.h]
    function by function.  Integers of the C code are [Z] with the width of
    the C type written out where an operation can wrap; the arrays reached
    through [mpQData], [mpNextStates] and [mpDeferEvtIDs] are lists; pointers
    to state descriptors are addresses ([Z]) looked up in a table of the
    program's static [tStateInfo] objects. *)

From Stdlib Require Import ZArith Lia List Bool.
From stdpp Require Import base tactics option list numbers.
Import ListNotations.
Local Open Scope Z_scope.

(* ===================================================================== *)
(** ** Types of xrpSMEngine.h                                             *)
(* ===================================================================== *)

(** [typedef enum { ACT_GUARD = 0, ACT_ENTER, ACT_EXIT, ACT_INTERNAL }]. *)
Inductive eStateAction : Set :=
| ACT_GUARD
| ACT_ENTER
| ACT_EXIT
| ACT_INTERNAL.

(** [tStEventID] is [ui16]; [tStEventData] is [void *], an opaque handle the
    engine copies and never dereferences; [tStateCount] is [ui8]. *)
Definition tStEventID := Z.
Definition tStEventData := Z.

(** A pointer to a [tStateInfo]: the address of the descriptor. *)
Definition tStateRef := Z.

(** [struct _StateEvent]. *)
Record tStateEvent : Set := mkEvent {
  mID : tStEventID;
  mData : tStEventData
}.

(** [struct _StateGuard]: one entry of a next-state list.  The C field is
    also called [mID]; it is [gID] here because the event record owns the
    projection of that name. *)
Record tStateGuard : Set := mkGuard {
  gID : tStEventID;
  mStInfo : tStateRef
}.

(** [struct _SmQueueEvt].  The four [UInt16] fields are integers, kept in
    range by [wrap16] wherever the C code increments or decrements them;
    [mpQData] is the backing array. *)
Record tSmQueueEvt : Set := mkQueue {
  mQHead : Z;
  mQTail : Z;
  mQCount : Z;
  mQSize : Z;
  mpQData : list tStateEvent
}.

(** [struct _SMInstance] (the instance name is debug text only). *)
Record tSmInstance : Set := mkInstance {
  pCurrState : tStateRef;
  activeEvtQueue : tSmQueueEvt;
  deferredEvtQueue : tSmQueueEvt;
  bInitFinished : bool
}.

(** The lines written through the [XLOGD_*] macros.  With [RDK] defined by
    the header and the [DGB_ENABLED_MODULES] test evaluating to 0, the
    [#elif defined( RDK )] branches are the ones compiled.  A message keeps
    the arguments of its format string; a state name is represented by the
    address of the state it belongs to. *)
Inductive tLogLevel : Set := LOG_DEBUG | LOG_INFO | LOG_WARN | LOG_ERROR | LOG_FATAL.

Inductive tLogMsg : Set :=
| MsgInit (st : tStateRef)
| MsgEnqueueNoInit (e : tStEventID) (c : Z)
| MsgEnqueue (e : tStEventID) (c : Z)
| MsgDefQueue (e : tStEventID) (c : Z)
| MsgSmDequeue (e : tStEventID) (c : Z)
| MsgDqDefEvent (e : tStEventID) (c : Z)
| MsgInternal (st : tStateRef) (e : tStEventID) (d : tStEventData)
| MsgExit (st : tStateRef) (e : tStEventID) (d : tStEventData)
| MsgEnter (st : tStateRef) (e : tStEventID) (d : tStEventData)
| MsgRejectedBy (st : tStateRef) (e : tStEventID) (d : tStEventData)
| MsgConsumed (e : tStEventID) (c : Z)
| MsgEventUnused (e : tStEventID) (d : tStEventData)
| MsgState (st : tStateRef)
| MsgEngineExit (a : Z) (d : Z).

Definition tLogLine : Set := tLogLevel * tLogMsg.

(** One invocation of a state entry point: whose [mEntry] was called, with
    which action and which event. *)
Record tCall : Set := mkCall {
  callee : tStateRef;
  action : eStateAction;
  event : tStateEvent
}.

(* ===================================================================== *)
(** ** Machine integers and arrays                                        *)
(* ===================================================================== *)

(** Result of an arithmetic operation stored back into a [UInt16]. *)
Definition wrap16 (z : Z) : Z := z mod 65536.

(** The values of type [UInt16]. *)
Definition is_u16 (z : Z) : Prop := 0 <= z < 65536.

(** [a[i]] and [a[i] = v] on the event array.  An access outside the array
    is undefined in C; here it reads [garbage] and writes nothing, and
    [queue_inv] below is what keeps every index of the engine inside. *)
Definition garbage : tStateEvent := mkEvent 0 0.

Definition array_get (a : list tStateEvent) (i : Z) : tStateEvent :=
  default garbage (a !! Z.to_nat i).

Definition array_set (a : list tStateEvent) (i : Z) (v : tStateEvent) : list tStateEvent :=
  <[Z.to_nat i := v]> a.

(* ===================================================================== *)
(** ** The event queue                                                    *)
(* ===================================================================== *)

Definition _SmQFull (pEvQ : tSmQueueEvt) : bool :=
  if mQCount pEvQ =? mQSize pEvQ then true else false.

Definition _SmQEmpty (pEvQ : tSmQueueEvt) : bool :=
  if 0 =? mQCount pEvQ then true else false.

(** [_SmEnqueueEvent] returns nothing; its only effect is on the queue. *)
Definition _SmEnqueueEvent (pEvQ : tSmQueueEvt) (evtID : tStEventID)
    (evtData : tStEventData) : tSmQueueEvt :=
  if _SmQFull pEvQ then pEvQ
  else
    let tail := wrap16 (mQTail pEvQ + 1) in
    let count := wrap16 (mQCount pEvQ + 1) in
    let tail := if tail =? mQSize pEvQ then 0 else tail in
    {| mQHead := mQHead pEvQ;
       mQTail := tail;
       mQCount := count;
       mQSize := mQSize pEvQ;
       mpQData := array_set (mpQData pEvQ) tail (mkEvent evtID evtData) |}.

(** [_SmDequeueEvent]: [None] is the C function returning FALSE (queue and
    [*pNewEvent] untouched), [Some (ev, q)] is TRUE with the event copied
    out and the queue advanced. *)
Definition _SmDequeueEvent (pEvQ : tSmQueueEvt) : option (tStateEvent * tSmQueueEvt) :=
  if _SmQEmpty pEvQ then None
  else
    let head := wrap16 (mQHead pEvQ + 1) in
    let count := wrap16 (mQCount pEvQ - 1) in
    let head := if head =? mQSize pEvQ then 0 else head in
    Some (array_get (mpQData pEvQ) head,
          {| mQHead := head;
             mQTail := mQTail pEvQ;
             mQCount := count;
             mQSize := mQSize pEvQ;
             mpQData := mpQData pEvQ |}).

(* ===================================================================== *)
(** ** The engine                                                         *)
(* ===================================================================== *)

Section Engine.

(** The state of the application outside the engine: whatever the state
    entry points read and write. *)
Context {W : Type}.

(** [tStateEntryPoint]: [void f( tStateEvent *pEvent, eStateAction eAction,
    BOOL *bGuardRespone )].  An entry point runs application code on the
    application's state; the boolean is what it stores through
    [bGuardRespone], which the engine passes (and reads) for [ACT_GUARD]
    only.  An entry point receives no pointer to the instance: it is
    taken here to leave the instance alone and not to write through
    [pEvent]. *)
Definition tStateEntryPoint : Type := tStateEvent -> eStateAction -> W -> W * bool.

(** [struct _StateInfo].  [mNextStCount] with [mpNextStates], and
    [mDeferEvtIDCount] with [mpDeferEvtIDs], are a length and an array:
    each pair is the list of the array's first count entries. *)
Record tStateInfo : Type := mkStateInfo {
  mEntry : tStateEntryPoint;
  mpNextStates : list tStateGuard;
  mpDeferEvtIDs : list tStEventID
}.

Definition mNextStCount (st : tStateInfo) : Z := Z.of_nat (length (mpNextStates st)).
Definition mDeferEvtIDCount (st : tStateInfo) : Z := Z.of_nat (length (mpDeferEvtIDs st)).

(** What a run of the engine acts on: the instance [*pSM], the application
    state, the history of entry-point invocations and the lines logged so
    far (both oldest first). *)
Record tRun : Type := mkRun {
  inst : tSmInstance;
  world : W;
  calls : list tCall;
  logged : list tLogLine
}.

(** The static state descriptors of the program, by address. *)
Variable tbl : tStateRef -> tStateInfo.

Definition with_inst (r : tRun) (i : tSmInstance) : tRun :=
  {| inst := i; world := world r; calls := calls r; logged := logged r |}.

Definition xlog (lvl : tLogLevel) (m : tLogMsg) (r : tRun) : tRun :=
  {| inst := inst r; world := world r; calls := calls r;
     logged := logged r ++ [(lvl, m)] |}.

(** [pState->mEntry( pEvent, eAction, &b )]: run the entry point of the
    state at [st] and record the invocation. *)
Definition invoke (st : tStateRef) (ev : tStateEvent) (act : eStateAction)
    (r : tRun) : bool * tRun :=
  let '(w, b) := mEntry (tbl st) ev act (world r) in
  (b, {| inst := inst r; world := w;
         calls := calls r ++ [mkCall st act ev]; logged := logged r |}).

Definition set_pCurrState (i : tSmInstance) (st : tStateRef) : tSmInstance :=
  {| pCurrState := st; activeEvtQueue := activeEvtQueue i;
     deferredEvtQueue := deferredEvtQueue i; bInitFinished := bInitFinished i |}.

Definition set_activeEvtQueue (i : tSmInstance) (q : tSmQueueEvt) : tSmInstance :=
  {| pCurrState := pCurrState i; activeEvtQueue := q;
     deferredEvtQueue := deferredEvtQueue i; bInitFinished := bInitFinished i |}.

Definition set_deferredEvtQueue (i : tSmInstance) (q : tSmQueueEvt) : tSmInstance :=
  {| pCurrState := pCurrState i; activeEvtQueue := activeEvtQueue i;
     deferredEvtQueue := q; bInitFinished := bInitFinished i |}.

(** The three assignments [mQCount = 0; mQHead = 0; mQTail = 0] of
    [SmInit]; [mQSize] and [mpQData] are left as the owner set them. *)
Definition reset_queue (q : tSmQueueEvt) : tSmQueueEvt :=
  {| mQHead := 0; mQTail := 0; mQCount := 0;
     mQSize := mQSize q; mpQData := mpQData q |}.

Definition SmInit (r : tRun) (pInitialStateInfo : tStateRef) : tRun :=
  let r := with_inst r (set_pCurrState (inst r) pInitialStateInfo) in
  let r := xlog LOG_INFO (MsgInit (pCurrState (inst r))) r in
  with_inst r
    {| pCurrState := pCurrState (inst r);
       activeEvtQueue := reset_queue (activeEvtQueue (inst r));
       deferredEvtQueue := reset_queue (deferredEvtQueue (inst r));
       bInitFinished := true |}.

Definition SmInThisState (r : tRun) (pTestStateInfo : tStateRef) : bool :=
  pCurrState (inst r) =? pTestStateInfo.

Definition SmSetThisState (r : tRun) (pNewStateInfo : tStateRef) : tRun :=
  with_inst r (set_pCurrState (inst r) pNewStateInfo).

Definition SmEnqueueEvent (r : tRun) (evtID : tStEventID) (evtData : tStEventData) : tRun :=
  if negb (bInitFinished (inst r)) then
    xlog LOG_FATAL (MsgEnqueueNoInit evtID (mQCount (activeEvtQueue (inst r)))) r
  else
    let r := with_inst r (set_activeEvtQueue (inst r)
               (_SmEnqueueEvent (activeEvtQueue (inst r)) evtID evtData)) in
    xlog LOG_DEBUG (MsgEnqueue evtID (mQCount (activeEvtQueue (inst r)))) r.

Definition _SmEnqueueDeferredEvent (r : tRun) (evtID : tStEventID)
    (evtData : tStEventData) : tRun :=
  let r := with_inst r (set_deferredEvtQueue (inst r)
             (_SmEnqueueEvent (deferredEvtQueue (inst r)) evtID evtData)) in
  xlog LOG_DEBUG (MsgDefQueue evtID (mQCount (deferredEvtQueue (inst r)))) r.

Definition _SmDequeueActiveEvent (r : tRun) : option tStateEvent * tRun :=
  match _SmDequeueEvent (activeEvtQueue (inst r)) with
  | None => (None, r)
  | Some (ev, q) =>
      let r := with_inst r (set_activeEvtQueue (inst r) q) in
      (Some ev, xlog LOG_DEBUG (MsgSmDequeue (mID ev) (mQCount (activeEvtQueue (inst r)))) r)
  end.

Definition _SmDequeueDeferredEvent (r : tRun) : option tStateEvent * tRun :=
  match _SmDequeueEvent (deferredEvtQueue (inst r)) with
  | None => (None, r)
  | Some (ev, q) =>
      let r := with_inst r (set_deferredEvtQueue (inst r) q) in
      (Some ev, xlog LOG_DEBUG (MsgDqDefEvent (mID ev) (mQCount (deferredEvtQueue (inst r)))) r)
  end.

(** The [for] loop of [_SmProcessEvent] over the next-state array of the
    state that was current when the function was entered; [edges] is the
    part of the array from [nextStateIdx] on.  The result is [bEventUsed]
    ([break] leaves with TRUE, running off the end with FALSE). *)
Fixpoint _SmProcessEvent_scan (edges : list tStateGuard) (pNewEvent : tStateEvent)
    (r : tRun) : bool * tRun :=
  match edges with
  | [] => (false, r)
  | edge :: rest =>
      if gID edge =? mID pNewEvent then
        let pNextStateInfo := mStInfo edge in
        if pCurrState (inst r) =? pNextStateInfo then
          let r := xlog LOG_DEBUG
                     (MsgInternal (pCurrState (inst r)) (mID pNewEvent) (mData pNewEvent)) r in
          let '(_, r) := invoke pNextStateInfo pNewEvent ACT_INTERNAL r in
          (true, r)
        else
          let '(bStGuard, r) := invoke pNextStateInfo pNewEvent ACT_GUARD r in
          if bStGuard then
            let r := xlog LOG_DEBUG
                       (MsgExit (pCurrState (inst r)) (mID pNewEvent) (mData pNewEvent)) r in
            let '(_, r) := invoke (pCurrState (inst r)) pNewEvent ACT_EXIT r in
            let r := with_inst r (set_pCurrState (inst r) pNextStateInfo) in
            let r := xlog LOG_DEBUG
                       (MsgEnter (pCurrState (inst r)) (mID pNewEvent) (mData pNewEvent)) r in
            let '(_, r) := invoke pNextStateInfo pNewEvent ACT_ENTER r in
            (true, r)
          else
            let r := xlog LOG_DEBUG
                       (MsgRejectedBy pNextStateInfo (mID pNewEvent) (mData pNewEvent)) r in
            _SmProcessEvent_scan rest pNewEvent r
      else _SmProcessEvent_scan rest pNewEvent r
  end.

Definition _SmProcessEvent (r : tRun) (pNewEvent : tStateEvent) : bool * tRun :=
  _SmProcessEvent_scan (mpNextStates (tbl (pCurrState (inst r)))) pNewEvent r.

(** The [for] loop of [_SmDeferEvent]: is the id among the deferrable ids. *)
Fixpoint _SmDeferEvent_scan (ids : list tStEventID) (evtID : tStEventID) : bool :=
  match ids with
  | [] => false
  | id :: rest => if evtID =? id then true else _SmDeferEvent_scan rest evtID
  end.

Definition _SmDeferEvent (r : tRun) (pNewEvent : tStateEvent) : tRun :=
  let bCanDefer :=
    _SmDeferEvent_scan (mpDeferEvtIDs (tbl (pCurrState (inst r)))) (mID pNewEvent) in
  if bCanDefer then
    _SmEnqueueDeferredEvent r (mID pNewEvent) (mData pNewEvent)
  else
    let r := xlog LOG_ERROR (MsgEventUnused (mID pNewEvent) (mData pNewEvent)) r in
    xlog LOG_DEBUG (MsgState (pCurrState (inst r))) r.

(** The [do ... while ( TRUE == bFoundEvent )] loop of
    [_SmProcessActiveEvents], one iteration per unit of fuel; the result is
    [consumedEventCount] at the exit of the loop. *)
Fixpoint _SmProcessActiveEvents_loop (fuel : nat) (consumedEventCount : Z)
    (r : tRun) : option (Z * tRun) :=
  match fuel with
  | O => None
  | S fuel =>
      match _SmDequeueActiveEvent r with
      | (None, r) => Some (consumedEventCount, r)
      | (Some newEvent, r) =>
          let '(bConsumedEvent, r) := _SmProcessEvent r newEvent in
          if bConsumedEvent then
            let r := xlog LOG_DEBUG
                       (MsgConsumed (mID newEvent) (mQCount (activeEvtQueue (inst r)))) r in
            _SmProcessActiveEvents_loop fuel (consumedEventCount + 1) r
          else
            _SmProcessActiveEvents_loop fuel consumedEventCount (_SmDeferEvent r newEvent)
      end
  end.

(** Every iteration but the last removes one event, so the loop runs
    [mQCount + 1] times. *)
Definition _SmProcessActiveEvents (r : tRun) : option (bool * tRun) :=
  match _SmProcessActiveEvents_loop
          (S (Z.to_nat (mQCount (activeEvtQueue (inst r))))) 0 r with
  | Some (consumedEventCount, r) => Some (negb (consumedEventCount =? 0), r)
  | None => None
  end.

(** The [do ... while ( ( TRUE == bFoundEvent ) && ( idx < maxLoopCount ) )]
    loop of [_SmProcessDeferredEvents]; the result is [consumedEventCount]
    and [idx] at the exit of the loop. *)
Fixpoint _SmProcessDeferredEvents_loop (fuel : nat) (maxLoopCount : Z)
    (consumedEventCount idx : Z) (r : tRun) : option (Z * Z * tRun) :=
  match fuel with
  | O => None
  | S fuel =>
      match _SmDequeueDeferredEvent r with
      | (None, r) => Some (consumedEventCount, idx, r)
      | (Some newEvent, r) =>
          let '(bConsumedEvent, r) := _SmProcessEvent r newEvent in
          let '(consumedEventCount, r) :=
            if bConsumedEvent then (consumedEventCount + 1, r)
            else (consumedEventCount, _SmDeferEvent r newEvent) in
          let idx := idx + 1 in
          if idx <? maxLoopCount then
            _SmProcessDeferredEvents_loop fuel maxLoopCount consumedEventCount idx r
          else Some (consumedEventCount, idx, r)
      end
  end.

Definition _SmProcessDeferredEvents (r : tRun) : option (bool * tRun) :=
  let maxLoopCount := mQCount (deferredEvtQueue (inst r)) in
  match _SmProcessDeferredEvents_loop (S (Z.to_nat maxLoopCount)) maxLoopCount 0 0 r with
  | Some (consumedEventCount, _, r) => Some (negb (consumedEventCount =? 0), r)
  | None => None
  end.

(** The test that guards the deferred replay inside the loop of
    [_SmEngine]. *)
Definition replay_gate (bChangedStatesUsingActiveEvents : bool) (r : tRun) : bool :=
  bChangedStatesUsingActiveEvents && negb (0 =? mQCount (deferredEvtQueue (inst r))).

(** One iteration of the [do ... while] loop of [_SmEngine]; the result is
    [bChangedStatesUsingDeferredEvents], which the iteration first sets to
    FALSE. *)
Definition _SmEngine_body (r : tRun) : option (bool * tRun) :=
  match _SmProcessActiveEvents r with
  | None => None
  | Some (bChangedStatesUsingActiveEvents, r) =>
      if replay_gate bChangedStatesUsingActiveEvents r then _SmProcessDeferredEvents r
      else Some (false, r)
  end.

(** The [do ... while ( TRUE == bChangedStatesUsingDeferredEvents )] loop
    of [_SmEngine]. *)
Fixpoint _SmEngine_loop (fuel : nat) (r : tRun) : option tRun :=
  match fuel with
  | O => None
  | S fuel =>
      match _SmEngine_body r with
      | None => None
      | Some (bChangedStatesUsingDeferredEvents, r) =>
          if bChangedStatesUsingDeferredEvents then _SmEngine_loop fuel r
          else Some r
      end
  end.

(** [fuel] bounds the iterations of the outer loop only. *)
Definition _SmEngine (fuel : nat) (r : tRun) : option tRun :=
  match _SmEngine_loop fuel r with
  | None => None
  | Some r =>
      Some (xlog LOG_DEBUG
              (MsgEngineExit (mQCount (activeEvtQueue (inst r)))
                             (mQCount (deferredEvtQueue (inst r)))) r)
  end.

Definition SmProcessEvents (fuel : nat) (r : tRun) : option tRun :=
  _SmEngine fuel r.

End Engine.

Arguments tStateInfo : clear implicits.
Arguments tRun : clear implicits.
Arguments tStateEntryPoint : clear implicits.

(* ===================================================================== *)
(** ** Notions used to state the properties                               *)
(* ===================================================================== *)

(** The invariant of the data model: [0 <= count <= capacity], and [head]
    and [tail] in [[0, capacity)]. *)
Definition queue_inv (q : tSmQueueEvt) : Prop :=
  0 <= mQCount q <= mQSize q /\
  0 <= mQHead q < mQSize q /\
  0 <= mQTail q < mQSize q.

(** An index in [[0, 2 * size)] brought back into the array. *)
Definition wrap_index (size i : Z) : Z := if i <? size then i else i - size.

(** A well-formed queue: the invariant, an array of [mQSize] slots, and the
    tail [mQCount] slots after the head. *)
Definition queue_wf (q : tSmQueueEvt) : Prop :=
  queue_inv q /\
  mQSize q < 65536 /\
  Z.of_nat (length (mpQData q)) = mQSize q /\
  mQTail q = wrap_index (mQSize q) (mQHead q + mQCount q).

(** The events a queue holds, oldest first: the slots after [mQHead]. *)
Definition q_contents (q : tSmQueueEvt) : list tStateEvent :=
  (fun k => array_get (mpQData q) (wrap_index (mQSize q) (mQHead q + 1 + k)))
    <$> seqZ 0 (mQCount q).

(** A queue as [SmInit] leaves it. *)
Definition queue_is_reset (q : tSmQueueEvt) : Prop :=
  mQHead q = 0 /\ mQTail q = 0 /\ mQCount q = 0.

(** Sequences of queue operations, and what a caller sees of them: the
    result of every dequeue. *)
Inductive tQueueOp : Set :=
| OpEnqueue (evtID : tStEventID) (evtData : tStEventData)
| OpDequeue.

Definition apply_op (op : tQueueOp) (q : tSmQueueEvt)
    : list (option tStateEvent) * tSmQueueEvt :=
  match op with
  | OpEnqueue evtID evtData => ([], _SmEnqueueEvent q evtID evtData)
  | OpDequeue =>
      match _SmDequeueEvent q with
      | None => ([None], q)
      | Some (ev, q') => ([Some ev], q')
      end
  end.

Fixpoint run_ops (ops : list tQueueOp) (q : tSmQueueEvt)
    : list (option tStateEvent) * tSmQueueEvt :=
  match ops with
  | [] => ([], q)
  | op :: ops =>
      let '(out1, q1) := apply_op op q in
      let '(out2, q2) := run_ops ops q1 in
      (out1 ++ out2, q2)
  end.

(** The reference: a first-in first-out list that holds at most [capacity]
    events and ignores an enqueue when it is full. *)
Definition fifo_op (capacity : Z) (op : tQueueOp) (l : list tStateEvent)
    : list (option tStateEvent) * list tStateEvent :=
  match op with
  | OpEnqueue evtID evtData =>
      ([], if Z.of_nat (length l) =? capacity then l else l ++ [mkEvent evtID evtData])
  | OpDequeue =>
      match l with
      | [] => ([None], [])
      | ev :: l' => ([Some ev], l')
      end
  end.

Fixpoint fifo_ops (capacity : Z) (ops : list tQueueOp) (l : list tStateEvent)
    : list (option tStateEvent) * list tStateEvent :=
  match ops with
  | [] => ([], l)
  | op :: ops =>
      let '(out1, l1) := fifo_op capacity op l in
      let '(out2, l2) := fifo_ops capacity ops l1 in
      (out1 ++ out2, l2)
  end.

(** Number of invocations of the entry point of [st] with action [act]. *)
Definition action_eqb (a b : eStateAction) : bool :=
  match a, b with
  | ACT_GUARD, ACT_GUARD | ACT_ENTER, ACT_ENTER
  | ACT_EXIT, ACT_EXIT | ACT_INTERNAL, ACT_INTERNAL => true
  | _, _ => false
  end.

Definition is_call (st : tStateRef) (act : eStateAction) (c : tCall) : bool :=
  (callee c =? st) && action_eqb (action c) act.

Definition count_calls (st : tStateRef) (act : eStateAction) (l : list tCall) : nat :=
  length (List.filter (is_call st act) l).

(** Number of invocations with action [act], of any state. *)
Definition count_action (act : eStateAction) (l : list tCall) : nat :=
  length (List.filter (fun c => action_eqb (action c) act) l).

(** The ids of the events reported as taken off the deferred queue. *)
Definition dq_def_ids (l : list tLogLine) : list tStEventID :=
  omap (fun ln => match snd ln with MsgDqDefEvent e _ => Some e | _ => None end) l.

(** The lines one call of [SmEnqueueEvent] adds to the log: with the
    missing return value, all a caller is told about the call. *)
Definition enqueue_report {W : Type} (r : tRun W) (evtID : tStEventID)
    (evtData : tStEventData) : list tLogLine :=
  drop (length (logged r)) (logged (SmEnqueueEvent r evtID evtData)).

(** An overflow is signalled when the report of an enqueue on a full queue
    can be told from the report of an enqueue that stores its event. *)
Definition overflow_signalled {W : Type} (r_full r_room : tRun W)
    (evtID : tStEventID) (evtData : tStEventData) : Prop :=
  enqueue_report r_full evtID evtData <> enqueue_report r_room evtID evtData.

(** What the scan of an edge list leaves alone: both queues, the
    initialized flag, and the record of events taken off the deferred
    queue. *)
Record scan_frame {W : Type} (r r' : tRun W) : Prop := {
  sf_active : activeEvtQueue (inst r') = activeEvtQueue (inst r);
  sf_deferred : deferredEvtQueue (inst r') = deferredEvtQueue (inst r);
  sf_init : bInitFinished (inst r') = bInitFinished (inst r);
  sf_dq : dq_def_ids (logged r') = dq_def_ids (logged r)
}.

(** One iteration of the deferred loop after its dequeue returned [ev] and
    left the deferred queue as [q']: the new value of
    [consumedEventCount] and the run. *)
Definition deferred_iter {W : Type} (tbl : tStateRef -> tStateInfo W)
    (r : tRun W) (ev : tStateEvent) (q' : tSmQueueEvt) (c : Z) : Z * tRun W :=
  let r1 := xlog LOG_DEBUG (MsgDqDefEvent (mID ev) (mQCount q'))
              (with_inst r (set_deferredEvtQueue (inst r) q')) in
  if fst (_SmProcessEvent tbl r1 ev) then (c + 1, snd (_SmProcessEvent tbl r1 ev))
  else (c, _SmDeferEvent tbl (snd (_SmProcessEvent tbl r1 ev)) ev).

(** An initialized instance seen through its queues: the current state, the
    capacities, and the events each queue holds. *)
Definition run_view {W : Type} (r : tRun W) (st : tStateRef) (na nd : Z)
    (al dl : list tStateEvent) : Prop :=
  pCurrState (inst r) = st /\
  bInitFinished (inst r) = true /\
  queue_wf (activeEvtQueue (inst r)) /\
  mQSize (activeEvtQueue (inst r)) = na /\
  q_contents (activeEvtQueue (inst r)) = al /\
  queue_wf (deferredEvtQueue (inst r)) /\
  mQSize (deferredEvtQueue (inst r)) = nd /\
  q_contents (deferredEvtQueue (inst r)) = dl.

(* ===================================================================== *)
(** ** Example configurations                                             *)
(* ===================================================================== *)

Module Demo.

(** Entry points over a trivial application state. *)
Definition accept_all : tStateEntryPoint unit := fun _ _ w => (w, true).
Definition reject_all : tStateEntryPoint unit := fun _ _ w => (w, false).

Definition evtW : tStEventID := 10.
Definition evtX : tStEventID := 11.
Definition evtY : tStEventID := 12.
Definition evtZ : tStEventID := 13.

Definition stA : tStateRef := 1.
Definition stB : tStateRef := 2.
Definition stC : tStateRef := 3.
Definition stD : tStateRef := 4.
Definition stE : tStateRef := 5.

(** A defers [evtY] and [evtZ] and moves to B on [evtW]; B defers [evtY]
    and moves to D on [evtZ]; D moves to E on [evtY]. *)
Definition cascade_tbl (st : tStateRef) : tStateInfo unit :=
  if st =? stA then mkStateInfo accept_all [mkGuard evtW stB] [evtY; evtZ]
  else if st =? stB then mkStateInfo accept_all [mkGuard evtZ stD] [evtY]
  else if st =? stD then mkStateInfo accept_all [mkGuard evtY stE] []
  else mkStateInfo accept_all [] [].

(** A offers [evtX] to B, whose guard rejects, then to C, whose guard
    accepts; C offers [evtX] to B only and lets [evtZ] be deferred. *)
Definition choice_tbl (st : tStateRef) : tStateInfo unit :=
  if st =? stA then mkStateInfo accept_all [mkGuard evtX stB; mkGuard evtX stC] []
  else if st =? stB then mkStateInfo reject_all [] []
  else if st =? stC then mkStateInfo accept_all [mkGuard evtX stB] [evtZ]
  else mkStateInfo accept_all [] [].

(** A offers [evtY] to B, whose guard rejects, then handles it itself; the
    edge to C after the self-loop is never reached. *)
Definition loop_tbl (st : tStateRef) : tStateInfo unit :=
  if st =? stA then
    mkStateInfo accept_all [mkGuard evtX stC; mkGuard evtY stB; mkGuard evtY stA;
                            mkGuard evtY stC] []
  else if st =? stB then mkStateInfo reject_all [] []
  else mkStateInfo accept_all [] [].

Definition empty_queue (n : nat) : tSmQueueEvt :=
  mkQueue 0 0 0 (Z.of_nat n) (replicate n garbage).

(** An instance before [SmInit], with queues of [n] and [m] slots. *)
Definition fresh (n m : nat) : tRun unit :=
  mkRun (mkInstance 0 (empty_queue n) (empty_queue m) false) tt [] [].

(** [init(A); enqueue(evtY); enqueue(evtZ); enqueue(evtW)]. *)
Definition cascade_start : tRun unit :=
  SmEnqueueEvent
    (SmEnqueueEvent (SmEnqueueEvent (SmInit (fresh 4 4) stA) evtY 100) evtZ 101)
    evtW 102.

(** A queue of two slots holding two events, and one holding one. *)
Definition full_queue : tSmQueueEvt :=
  _SmEnqueueEvent (_SmEnqueueEvent (empty_queue 2) evtW 1) evtX 2.
Definition roomy_queue : tSmQueueEvt :=
  _SmEnqueueEvent (empty_queue 2) evtW 1.

Definition run_with_active (q : tSmQueueEvt) : tRun unit :=
  mkRun (mkInstance stA q (empty_queue 2) true) tt [] [].

(** An initialized instance in state [st] with empty queues of 4 slots. *)
Definition run_in (st : tStateRef) : tRun unit :=
  mkRun (mkInstance st (empty_queue 4) (empty_queue 4) true) tt [] [].

(** [cascade_start] after the active pass of [SmProcessEvents]. *)
Definition cascade_after_active : tRun unit :=
  match _SmProcessActiveEvents cascade_tbl cascade_start with
  | Some (_, r) => r
  | None => cascade_start
  end.

End Demo.

(* ===================================================================== *)
(** ** Further notions and example configurations                         *)
(* ===================================================================== *)

(** The events of a list offered one after the other to [SmEnqueueEvent]. *)
Definition enqueue_all {W : Type} (r : tRun W) (l : list tStateEvent) : tRun W :=
  fold_left (fun r ev => SmEnqueueEvent r (mID ev) (mData ev)) l r.

(** The ids of the events reported as taken off the active queue. *)
Definition sm_dequeue_ids (l : list tLogLine) : list tStEventID :=
  omap (fun ln => match snd ln with MsgSmDequeue e _ => Some e | _ => None end) l.

(** Does the state at [st] let the event be deferred. *)
Definition deferrable {W : Type} (tbl : tStateRef -> tStateInfo W) (st : tStateRef)
    (ev : tStateEvent) : bool :=
  _SmDeferEvent_scan (mpDeferEvtIDs (tbl st)) (mID ev).

Definition event_eqb (a b : tStateEvent) : bool :=
  (mID a =? mID b) && (mData a =? mData b).

(** [x] is the Exit of the state at [st] for the event [ev]; [y] is the
    Enter of the state at [t] for it. *)
Definition is_exit_of (st : tStateRef) (ev : tStateEvent) (x : tCall) : bool :=
  action_eqb (action x) ACT_EXIT && (callee x =? st) && event_eqb (event x) ev.

Definition is_enter_of (t : tStateRef) (ev : tStateEvent) (y : tCall) : bool :=
  action_eqb (action y) ACT_ENTER && (callee y =? t) && event_eqb (event y) ev.

(** Reading a history of entry-point invocations as a walk through the
    states, starting in [st]: an Internal invocation must be of the current
    state; a Guard must be of another state, and is either left without
    effect or followed at once by the Exit of the current state and the
    Enter of the guard's state, for the same event, which becomes the
    current state; an Exit or an Enter anywhere else is not a walk.  The
    result is the state the walk ends in. *)
Fixpoint trace_state (st : tStateRef) (l : list tCall) : option tStateRef :=
  match l with
  | [] => Some st
  | c :: l1 =>
      match action c with
      | ACT_INTERNAL => if callee c =? st then trace_state st l1 else None
      | ACT_GUARD =>
          if callee c =? st then None
          else
            match l1 with
            | x :: y :: l3 =>
                if is_exit_of st (event c) x then
                  if is_enter_of (callee c) (event c) y then trace_state (callee c) l3
                  else None
                else trace_state st l1
            | _ => trace_state st l1
            end
      | ACT_ENTER | ACT_EXIT => None
      end
  end.

(** A relation between the run before and the run after: both queues
    well-formed before means both well-formed after, with the capacities
    and the initialized flag as they were. *)
Definition keeps_queues {W : Type} (r r' : tRun W) : Prop :=
  queue_wf (activeEvtQueue (inst r)) -> queue_wf (deferredEvtQueue (inst r)) ->
  queue_wf (activeEvtQueue (inst r')) /\ queue_wf (deferredEvtQueue (inst r')) /\
  mQSize (activeEvtQueue (inst r')) = mQSize (activeEvtQueue (inst r)) /\
  mQSize (deferredEvtQueue (inst r')) = mQSize (deferredEvtQueue (inst r)) /\
  bInitFinished (inst r') = bInitFinished (inst r).

(** The invocations added between two runs form a walk from the current
    state of the first to the current state of the second. *)
Definition walks {W : Type} (r r' : tRun W) : Prop :=
  exists d, calls r' = calls r ++ d /\
    trace_state (pCurrState (inst r)) d = Some (pCurrState (inst r')).

Module Tour.

(** Five events for a queue of four slots. *)
Definition five : list tStateEvent :=
[mkEvent 1 10; mkEvent 2 20; mkEvent 3 30; mkEvent 4 40; mkEvent 5 50].

(** State A of [Demo.cascade_tbl] with evtY, evtX, evtZ in the active
  queue: A has no edge for any of them and defers evtY and evtZ only. *)
Definition unmatched_start : tRun unit :=
enqueue_all (SmInit (Demo.fresh 4 4) Demo.stA)
  [mkEvent Demo.evtY 1; mkEvent Demo.evtX 2; mkEvent Demo.evtZ 3].

(** The same after the active pass, forced into state E, which has no edge
  and defers nothing. *)
Definition stranded : tRun unit :=
match _SmProcessActiveEvents Demo.cascade_tbl unmatched_start with
| Some (_, r) => SmSetThisState r Demo.stE
| None => unmatched_start
end.

(** An instance that was never initialized, with one event left in its
  active queue's storage and counters. *)
Definition stale : tRun unit :=
mkRun (mkInstance Demo.stB Demo.roomy_queue Demo.full_queue false) tt [] [].

End Tour.

(** Bounds on concrete integers, decided by evaluation. *)
Ltac by_evaluation :=
  unfold is_u16, queue_wf, queue_inv;
  repeat match goal with |- _ /\ _ => split end;
  try first [apply Z.leb_le | apply Z.ltb_lt];
  vm_compute; reflexivity.

(* ===================================================================== *)
(** ** The event queue: invariant and contents                            *)
(* ===================================================================== *)

Lemma SmQFull_true (q : tSmQueueEvt) : _SmQFull q = true <-> mQCount q = mQSize q.
Proof. unfold _SmQFull. destruct (Z.eqb_spec (mQCount q) (mQSize q)); split; congruence. Qed.

Lemma SmQEmpty_true (q : tSmQueueEvt) : _SmQEmpty q = true <-> mQCount q = 0.
Proof. unfold _SmQEmpty. destruct (Z.eqb_spec 0 (mQCount q)); split; congruence. Qed.

Lemma SmQFull_false (q : tSmQueueEvt) : _SmQFull q = false <-> mQCount q <> mQSize q.
Proof. unfold _SmQFull. destruct (Z.eqb_spec (mQCount q) (mQSize q)); split; congruence. Qed.

Lemma SmQEmpty_false (q : tSmQueueEvt) : _SmQEmpty q = false <-> mQCount q <> 0.
Proof. unfold _SmQEmpty. destruct (Z.eqb_spec 0 (mQCount q)); split; congruence. Qed.

Lemma wrap16_small (z : Z) : 0 <= z < 65536 -> wrap16 z = z.
Proof. intros H. unfold wrap16. apply Z.mod_small. lia. Qed.

Lemma enqueue_when_full (q : tSmQueueEvt) (id : tStEventID) (d : tStEventData) :
  mQCount q = mQSize q -> _SmEnqueueEvent q id d = q.
Proof. intros H. unfold _SmEnqueueEvent. apply SmQFull_true in H. now rewrite H. Qed.

Lemma dequeue_when_empty (q : tSmQueueEvt) : mQCount q = 0 -> _SmDequeueEvent q = None.
Proof. intros H. unfold _SmDequeueEvent. apply SmQEmpty_true in H. now rewrite H. Qed.

Lemma enqueue_size (q : tSmQueueEvt) id d : mQSize (_SmEnqueueEvent q id d) = mQSize q.
Proof. unfold _SmEnqueueEvent. now destruct (_SmQFull q). Qed.

Lemma dequeue_size (q q' : tSmQueueEvt) ev :
  _SmDequeueEvent q = Some (ev, q') -> mQSize q' = mQSize q.
Proof. unfold _SmDequeueEvent. destruct (_SmQEmpty q); [discriminate|]. now intros [= _ <-]. Qed.

(** The three bounds alone are preserved by both operations. *)
Lemma enqueue_inv (q : tSmQueueEvt) id d :
  mQSize q < 65536 -> queue_inv q -> queue_inv (_SmEnqueueEvent q id d).
Proof.
  intros Hsz (Hc & Hh & Ht). unfold _SmEnqueueEvent.
  destruct (_SmQFull q) eqn:Hfull; [repeat split; lia|].
  apply SmQFull_false in Hfull.
  rewrite !wrap16_small by lia.
  unfold queue_inv; cbn.
  destruct (Z.eqb_spec (mQTail q + 1) (mQSize q)); lia.
Qed.

Lemma dequeue_inv (q q' : tSmQueueEvt) ev :
  mQSize q < 65536 -> queue_inv q -> _SmDequeueEvent q = Some (ev, q') -> queue_inv q'.
Proof.
  intros Hsz (Hc & Hh & Ht). unfold _SmDequeueEvent.
  destruct (_SmQEmpty q) eqn:Hempty; [discriminate|].
  apply SmQEmpty_false in Hempty. intros [= _ <-].
  rewrite !wrap16_small by lia.
  unfold queue_inv; cbn.
  destruct (Z.eqb_spec (mQHead q + 1) (mQSize q)); lia.
Qed.

Lemma contents_length (q : tSmQueueEvt) :
  length (q_contents q) = Z.to_nat (mQCount q).
Proof. unfold q_contents. now rewrite length_fmap, length_seqZ. Qed.

Lemma array_get_set_eq (a : list tStateEvent) (i : Z) v :
  0 <= i < Z.of_nat (length a) -> array_get (array_set a i v) i = v.
Proof.
  intros H. unfold array_get, array_set.
  rewrite list_lookup_insert_eq by lia. reflexivity.
Qed.

Lemma array_get_set_ne (a : list tStateEvent) (i j : Z) v :
  0 <= i -> 0 <= j -> i <> j -> array_get (array_set a i v) j = array_get a j.
Proof.
  intros Hi Hj Hne. unfold array_get, array_set.
  rewrite list_lookup_insert_ne by lia. reflexivity.
Qed.

Lemma enqueue_wf (q : tSmQueueEvt) id d :
  queue_wf q -> mQCount q < mQSize q ->
  queue_wf (_SmEnqueueEvent q id d) /\
  q_contents (_SmEnqueueEvent q id d) = q_contents q ++ [mkEvent id d] /\
  mQCount (_SmEnqueueEvent q id d) = mQCount q + 1.
Proof.
  intros ((Hc & Hh & Ht) & Hsz & Hlen & Htail) Hroom.
  unfold _SmEnqueueEvent.
  assert (Hfull : _SmQFull q = false) by (apply SmQFull_false; lia).
  rewrite Hfull, !wrap16_small by lia.
  set (t := if mQTail q + 1 =? mQSize q then 0 else mQTail q + 1).
  assert (Ht' : t = wrap_index (mQSize q) (mQHead q + (mQCount q + 1))).
  { subst t. rewrite Htail. unfold wrap_index.
    repeat match goal with |- context [?a <? ?b] => destruct (Z.ltb_spec a b) end;
    repeat match goal with |- context [?a =? ?b] => destruct (Z.eqb_spec a b) end; lia. }
  assert (Htr : 0 <= t < mQSize q).
  { subst t. destruct (Z.eqb_spec (mQTail q + 1) (mQSize q)); lia. }
  split; [|split]; [| |reflexivity].
  - unfold queue_wf, queue_inv, array_set; cbn. rewrite length_insert. repeat split; lia.
  - unfold q_contents; cbn.
    rewrite seqZ_app, fmap_app by lia. f_equal.
    + apply list_fmap_ext. intros i k Hk.
      apply lookup_seqZ in Hk as [-> Hk].
      apply array_get_set_ne; [lia| |].
      * unfold wrap_index. destruct (Z.ltb_spec (mQHead q + 1 + (0 + Z.of_nat i)) (mQSize q)); lia.
      * rewrite Ht'. unfold wrap_index.
        repeat match goal with |- context [?a <? ?b] => destruct (Z.ltb_spec a b) end; lia.
    + rewrite seqZ_cons, seqZ_nil by lia. cbn. f_equal.
      replace (mQHead q + 1 + (0 + mQCount q)) with (mQHead q + (mQCount q + 1)) by lia.
      rewrite <- Ht'. apply array_get_set_eq. lia.
Qed.

Lemma dequeue_wf (q : tSmQueueEvt) :
  queue_wf q -> 0 < mQCount q ->
  exists ev q', _SmDequeueEvent q = Some (ev, q') /\
    queue_wf q' /\ q_contents q = ev :: q_contents q' /\
    mQCount q' = mQCount q - 1.
Proof.
  intros ((Hc & Hh & Ht) & Hsz & Hlen & Htail) Hpos.
  unfold _SmDequeueEvent.
  assert (Hempty : _SmQEmpty q = false) by (apply SmQEmpty_false; lia).
  rewrite Hempty, !wrap16_small by lia.
  set (h := if mQHead q + 1 =? mQSize q then 0 else mQHead q + 1).
  assert (Hh' : h = wrap_index (mQSize q) (mQHead q + 1)).
  { subst h. unfold wrap_index.
    destruct (Z.ltb_spec (mQHead q + 1) (mQSize q));
    destruct (Z.eqb_spec (mQHead q + 1) (mQSize q)); lia. }
  assert (Hhr : 0 <= h < mQSize q).
  { subst h. destruct (Z.eqb_spec (mQHead q + 1) (mQSize q)); lia. }
  eexists _, _. split; [reflexivity|]. split; [|split]; [| |reflexivity].
  - unfold queue_wf, queue_inv; cbn. repeat split; try lia.
    rewrite Htail, Hh'. unfold wrap_index.
    repeat match goal with |- context [?a <? ?b] => destruct (Z.ltb_spec a b) end; lia.
  - unfold q_contents; cbn.
    rewrite (seqZ_cons 0 (mQCount q)) by lia. rewrite fmap_cons. f_equal.
    + rewrite Hh'. f_equal. f_equal. lia.
    + replace (Z.succ 0) with (1 + 0) by lia.
      rewrite <- fmap_add_seqZ, <- list_fmap_compose.
      replace (Z.pred (mQCount q)) with (mQCount q - 1) by lia.
      apply list_fmap_ext. intros i k Hk.
      apply lookup_seqZ in Hk as [-> Hk]. cbn. f_equal.
      rewrite Hh'. unfold wrap_index.
      repeat match goal with |- context [?a <? ?b] => destruct (Z.ltb_spec a b) end; lia.
Qed.

Lemma reset_wf (q : tSmQueueEvt) :
  0 < mQSize q < 65536 -> Z.of_nat (length (mpQData q)) = mQSize q ->
  queue_wf (reset_queue q) /\ q_contents (reset_queue q) = [].
Proof.
  intros Hsz Hlen. split.
  - unfold queue_wf, queue_inv, wrap_index; cbn.
    destruct (Z.ltb_spec (0 + 0) (mQSize q)); repeat split; lia.
  - reflexivity.
Qed.

(** One operation on a well-formed queue is the same operation on the list
    of its contents. *)
Lemma apply_op_refines (op : tQueueOp) (q : tSmQueueEvt) :
  queue_wf q ->
  queue_wf (snd (apply_op op q)) /\
  mQSize (snd (apply_op op q)) = mQSize q /\
  fst (apply_op op q) = fst (fifo_op (mQSize q) op (q_contents q)) /\
  q_contents (snd (apply_op op q)) = snd (fifo_op (mQSize q) op (q_contents q)).
Proof.
  intros Hwf. pose proof Hwf as ((Hc & Hh & Ht) & Hsz & Hlen & Htail).
  destruct op as [id d|]; cbn [apply_op fifo_op fst snd].
  - rewrite enqueue_size, contents_length, Z2Nat.id by lia.
    destruct (Z.eqb_spec (mQCount q) (mQSize q)) as [Hfull|Hroom].
    + rewrite enqueue_when_full by exact Hfull. auto.
    + destruct (enqueue_wf q id d Hwf) as (Hwf' & Hcont & _); [lia|]. auto.
  - destruct (Z.eq_dec (mQCount q) 0) as [Hempty|Hne].
    + rewrite dequeue_when_empty by exact Hempty. cbn.
      assert (Hnil : q_contents q = []).
      { apply length_zero_iff_nil. rewrite contents_length, Hempty. reflexivity. }
      rewrite Hnil. auto.
    + destruct (dequeue_wf q Hwf) as (ev & q' & Hdq & Hwf' & Hcont & Hcnt); [lia|].
      rewrite Hdq, Hcont. cbn.
      split; [assumption|]. split; [eapply dequeue_size; eassumption|]. split; reflexivity.
Qed.

Lemma run_ops_refines (ops : list tQueueOp) (q : tSmQueueEvt) :
  queue_wf q ->
  queue_wf (snd (run_ops ops q)) /\
  fst (run_ops ops q) = fst (fifo_ops (mQSize q) ops (q_contents q)) /\
  q_contents (snd (run_ops ops q)) = snd (fifo_ops (mQSize q) ops (q_contents q)).
Proof.
  revert q. induction ops as [|op ops IH]; intros q Hwf; [cbn; auto|].
  cbn [run_ops fifo_ops].
  destruct (apply_op_refines op q Hwf) as (Hwf1 & Hsz1 & Hout1 & Hcont1).
  destruct (apply_op op q) as [out1 q1]; cbn [fst snd] in *.
  destruct (fifo_op (mQSize q) op (q_contents q)) as [fout1 l1]; cbn [fst snd] in *.
  subst fout1 l1.
  destruct (IH q1 Hwf1) as (Hwf2 & Hout2 & Hcont2).
  rewrite Hsz1 in Hout2, Hcont2.
  destruct (run_ops ops q1) as [out2 q2]; cbn [fst snd] in *.
  destruct (fifo_ops (mQSize q) ops (q_contents q1)) as [fout2 l2]; cbn [fst snd] in *.
  subst. auto.
Qed.

(** A queue without slots ignores every operation, and so does the
    reference list of capacity 0. *)
Lemma run_ops_no_slots (ops : list tQueueOp) (q : tSmQueueEvt) :
  mQSize q = 0 -> mQCount q = 0 ->
  snd (run_ops ops q) = q /\ fst (run_ops ops q) = fst (fifo_ops 0 ops []).
Proof.
  intros Hsz Hcnt. induction ops as [|op ops [IHq IHo]]; [cbn; auto|].
  cbn [run_ops fifo_ops].
  assert (Hop : apply_op op q = (fst (fifo_op 0 op []), q)).
  { destruct op as [id d|]; cbn.
    - rewrite enqueue_when_full by lia. reflexivity.
    - rewrite dequeue_when_empty by exact Hcnt. reflexivity. }
  rewrite Hop.
  assert (Hl : snd (fifo_op 0 op []) = []) by (destruct op; reflexivity).
  destruct (fifo_op 0 op []) as [fout1 l1]; cbn [fst snd] in *. subst l1.
  destruct (run_ops ops q) as [out2 q2]; cbn [fst snd] in *.
  destruct (fifo_ops 0 ops []) as [fout2 l2]; cbn [fst snd] in *.
  subst. auto.
Qed.

(** C6. Starting from the reset queue, every sequence of enqueue and dequeue
    operations returns from its dequeues what a first-in first-out list of
    the same capacity returns, and the queue then holds what that list
    holds; the bounds [0 <= count <= capacity], [head] and [tail] in
    [[0, capacity)] are preserved by each operation and hold after every
    sequence of operations on a queue that has at least one slot; the queue
    tests empty exactly when [count = 0] and full exactly when
    [count = capacity]. *)
Theorem queue_fifo_and_invariant :
  (forall (q : tSmQueueEvt) (ops : list tQueueOp),
     0 <= mQSize q < 65536 -> Z.of_nat (length (mpQData q)) = mQSize q ->
     queue_is_reset q ->
     fst (run_ops ops q) = fst (fifo_ops (mQSize q) ops []) /\
     0 <= mQCount (snd (run_ops ops q)) <= mQSize q /\
     (0 < mQSize q ->
      queue_inv (snd (run_ops ops q)) /\
      q_contents (snd (run_ops ops q)) = snd (fifo_ops (mQSize q) ops []))) /\
  (forall (q : tSmQueueEvt) (op : tQueueOp),
     mQSize q < 65536 -> queue_inv q -> queue_inv (snd (apply_op op q))) /\
  (forall q : tSmQueueEvt, _SmQEmpty q = true <-> mQCount q = 0) /\
  (forall q : tSmQueueEvt, _SmQFull q = true <-> mQCount q = mQSize q).
Proof.
  split; [|split; [|split]].
  - intros q ops Hsz Hlen (Hh & Ht & Hc).
    destruct (Z.eq_dec (mQSize q) 0) as [Hz|Hnz].
    + destruct (run_ops_no_slots ops q Hz Hc) as [Hq Ho].
      rewrite Hq, Ho, Hz. split; [reflexivity|]. split; [lia|]. intros; lia.
    + assert (Hwf : queue_wf q).
      { unfold queue_wf, queue_inv, wrap_index. rewrite Hh, Ht, Hc.
        destruct (Z.ltb_spec (0 + 0) (mQSize q)); repeat split; lia. }
      assert (Hnil : q_contents q = []).
      { apply length_zero_iff_nil. rewrite contents_length, Hc. reflexivity. }
      destruct (run_ops_refines ops q Hwf) as (Hwf' & Hout & Hcont).
      rewrite Hnil in Hout, Hcont.
      assert (Hsz' : mQSize (snd (run_ops ops q)) = mQSize q).
      { clear -Hwf. revert q Hwf. induction ops as [|op ops IH]; intros q Hwf; [reflexivity|].
        cbn [run_ops]. destruct (apply_op_refines op q Hwf) as (Hwf1 & Hsz1 & _).
        destruct (apply_op op q) as [o1 q1]; cbn [snd] in *.
        specialize (IH q1 Hwf1). destruct (run_ops ops q1); cbn [snd] in *. congruence. }
      destruct Hwf' as (Hinv & _). pose proof Hinv as (Hc' & _).
      rewrite Hsz' in Hc'. split; [assumption|]. split; [lia|]. intros _. split; assumption.
  - intros q op Hsz Hinv. destruct op as [id d|]; cbn [apply_op snd].
    + apply enqueue_inv; assumption.
    + destruct (_SmDequeueEvent q) as [[ev q']|] eqn:Hdq; cbn [snd]; [|assumption].
      eapply dequeue_inv; eassumption.
  - apply SmQEmpty_true.
  - apply SmQFull_true.
Qed.

Lemma queue_fifo_and_invariant_witness :
  let q := Demo.empty_queue 2 in
  let ops := [OpEnqueue 1 10; OpEnqueue 2 20; OpEnqueue 3 30; OpDequeue;
              OpEnqueue 4 40; OpDequeue; OpDequeue; OpDequeue] in
  fst (run_ops ops q) =
    [Some (mkEvent 1 10); Some (mkEvent 2 20); Some (mkEvent 4 40); None] /\
  queue_inv (snd (run_ops ops q)).
Proof.
  intros q ops.
  destruct (proj1 queue_fifo_and_invariant q ops) as (Hout & _ & Hinv).
  - cbn; lia.
  - reflexivity.
  - repeat split.
  - split.
    + rewrite Hout. reflexivity.
    + apply Hinv. cbn; lia.
Defined.

(* ===================================================================== *)
(** ** The transition protocol                                            *)
(* ===================================================================== *)

Section Protocol.

Context {W : Type}.
Variable tbl : tStateRef -> tStateInfo W.

Lemma invoke_eq (st : tStateRef) (ev : tStateEvent) (act : eStateAction) (r : tRun W) :
  invoke tbl st ev act r =
    (snd (mEntry (tbl st) ev act (world r)),
     mkRun (inst r) (fst (mEntry (tbl st) ev act (world r)))
           (calls r ++ [mkCall st act ev]) (logged r)).
Proof. unfold invoke. destruct (mEntry (tbl st) ev act (world r)); reflexivity. Qed.

Lemma dq_def_ids_app (l1 l2 : list tLogLine) :
  dq_def_ids (l1 ++ l2) = dq_def_ids l1 ++ dq_def_ids l2.
Proof. unfold dq_def_ids. apply omap_app. Qed.

Lemma scan_frame_refl (r : tRun W) : scan_frame r r.
Proof. split; reflexivity. Qed.

Lemma scan_frame_trans (r1 r2 r3 : tRun W) :
  scan_frame r1 r2 -> scan_frame r2 r3 -> scan_frame r1 r3.
Proof. intros [] []; split; congruence. Qed.

Lemma SmProcessEvent_scan_frame (edges : list tStateGuard) (ev : tStateEvent)
    (r r' : tRun W) (b : bool) :
  _SmProcessEvent_scan tbl edges ev r = (b, r') -> scan_frame r r'.
Proof.
  revert r. induction edges as [|edge rest IH]; intros r H; cbn in H.
  - injection H as <- <-. apply scan_frame_refl.
  - destruct (gID edge =? mID ev); [|eauto].
    destruct (pCurrState (inst r) =? mStInfo edge).
    + rewrite invoke_eq in H. injection H as <- <-.
      split; cbn; try reflexivity. rewrite dq_def_ids_app, app_nil_r. reflexivity.
    + rewrite invoke_eq in H.
      destruct (snd (mEntry (tbl (mStInfo edge)) ev ACT_GUARD (world r))).
      * rewrite !invoke_eq in H. injection H as <- <-.
        split; cbn; try reflexivity. rewrite !dq_def_ids_app, !app_nil_r. reflexivity.
      * apply IH in H. eapply scan_frame_trans; [|exact H].
        split; cbn; try reflexivity. rewrite dq_def_ids_app, app_nil_r. reflexivity.
Qed.

(** An event that no edge consumes leaves the instance as it was; the
    only entry points run are guards, each on that event. *)
Lemma SmProcessEvent_scan_unconsumed (edges : list tStateGuard) (ev : tStateEvent)
    (r r' : tRun W) :
  _SmProcessEvent_scan tbl edges ev r = (false, r') ->
  inst r' = inst r /\
  exists gs, calls r' = calls r ++ gs /\
    Forall (fun c => action c = ACT_GUARD /\ event c = ev) gs /\
    Forall (fun e => gID e = mID ev -> mStInfo e <> pCurrState (inst r) /\
                     In (mkCall (mStInfo e) ACT_GUARD ev) gs) edges.
Proof.
  revert r. induction edges as [|edge rest IH]; intros r H; cbn in H.
  - injection H as <-. split; [reflexivity|]. exists []. rewrite app_nil_r. auto.
  - destruct (Z.eqb_spec (gID edge) (mID ev)) as [Hid|Hid].
    + destruct (Z.eqb_spec (pCurrState (inst r)) (mStInfo edge)) as [Hself|Hself].
      * rewrite invoke_eq in H. discriminate.
      * rewrite invoke_eq in H.
        destruct (snd (mEntry (tbl (mStInfo edge)) ev ACT_GUARD (world r))).
        { rewrite !invoke_eq in H. discriminate. }
        apply IH in H. cbn in H. destruct H as (Hinst & gs & Hcalls & Hgs & Hedges).
        split; [exact Hinst|].
        exists (mkCall (mStInfo edge) ACT_GUARD ev :: gs).
        split; [rewrite Hcalls, <- app_assoc; reflexivity|].
        split; [constructor; auto|].
        constructor.
        { intros _. split; [congruence|]. left; reflexivity. }
        eapply List.Forall_impl; [|exact Hedges]. cbn. intros e He Hm.
        destruct (He Hm). split; [assumption|]. right; assumption.
    + apply IH in H. destruct H as (Hinst & gs & Hcalls & Hgs & Hedges).
      split; [exact Hinst|]. exists gs. split; [assumption|]. split; [assumption|].
      constructor; [intros; contradiction|assumption].
Qed.

Lemma SmProcessEvent_scan_no_match (edges : list tStateGuard) (ev : tStateEvent) (r : tRun W) :
  Forall (fun e => gID e <> mID ev) edges ->
  _SmProcessEvent_scan tbl edges ev r = (false, r).
Proof.
  induction 1 as [|edge rest Hne _ IH]; cbn; [reflexivity|].
  destruct (Z.eqb_spec (gID edge) (mID ev)); [contradiction|exact IH].
Qed.

(** The scan of a list in two parts: the second part is scanned exactly
    when the first did not consume the event. *)
Lemma SmProcessEvent_scan_app (pre post : list tStateGuard) (ev : tStateEvent) (r : tRun W) :
  _SmProcessEvent_scan tbl (pre ++ post) ev r =
    (if fst (_SmProcessEvent_scan tbl pre ev r) then _SmProcessEvent_scan tbl pre ev r
     else _SmProcessEvent_scan tbl post ev (snd (_SmProcessEvent_scan tbl pre ev r))).
Proof.
  revert r. induction pre as [|edge rest IH]; intros r; cbn; [reflexivity|].
  destruct (gID edge =? mID ev); [|apply IH].
  destruct (pCurrState (inst r) =? mStInfo edge).
  - rewrite invoke_eq. reflexivity.
  - rewrite invoke_eq.
    destruct (snd (mEntry (tbl (mStInfo edge)) ev ACT_GUARD (world r))).
    + rewrite !invoke_eq. reflexivity.
    + apply IH.
Qed.

End Protocol.

Lemma count_calls_app (st : tStateRef) (act : eStateAction) (l1 l2 : list tCall) :
  count_calls st act (l1 ++ l2) = (count_calls st act l1 + count_calls st act l2)%nat.
Proof. unfold count_calls. now rewrite List.filter_app, length_app. Qed.

Lemma count_action_app (act : eStateAction) (l1 l2 : list tCall) :
  count_action act (l1 ++ l2) = (count_action act l1 + count_action act l2)%nat.
Proof. unfold count_action. now rewrite List.filter_app, length_app. Qed.

Lemma count_action_guards (act : eStateAction) (ev : tStateEvent) (gs : list tCall) :
  Forall (fun c => action c = ACT_GUARD /\ event c = ev) gs -> act <> ACT_GUARD ->
  count_action act gs = 0%nat.
Proof.
  intros Hgs Hact. induction Hgs as [|c gs [Hc _] _ IH]; [reflexivity|].
  unfold count_action in *. cbn. rewrite Hc.
  destruct act; try contradiction; cbn; exact IH.
Qed.

Lemma count_calls_guards (st : tStateRef) (act : eStateAction) (ev : tStateEvent)
    (gs : list tCall) :
  Forall (fun c => action c = ACT_GUARD /\ event c = ev) gs -> act <> ACT_GUARD ->
  count_calls st act gs = 0%nat.
Proof.
  intros Hgs Hact. induction Hgs as [|c gs [Hc _] _ IH]; [reflexivity|].
  unfold count_calls, is_call in *. cbn. rewrite Hc.
  destruct act; try contradiction; cbn; rewrite andb_false_r; exact IH.
Qed.

Section ProtocolClaims.

Context {W : Type}.
Variable tbl : tStateRef -> tStateInfo W.

(** The first matching edge whose guard accepts, after a prefix that did
    not consume the event. *)
Lemma SmProcessEvent_first_accept (pre post : list tStateGuard) (T : tStateRef)
    (ev : tStateEvent) (r r1 : tRun W) :
  mpNextStates (tbl (pCurrState (inst r))) = pre ++ mkGuard (mID ev) T :: post ->
  _SmProcessEvent_scan tbl pre ev r = (false, r1) ->
  T <> pCurrState (inst r) ->
  snd (mEntry (tbl T) ev ACT_GUARD (world r1)) = true ->
  exists r', _SmProcessEvent tbl r ev = (true, r') /\
    inst r' = set_pCurrState (inst r) T /\
    calls r' = calls r1 ++ [mkCall T ACT_GUARD ev;
                            mkCall (pCurrState (inst r)) ACT_EXIT ev;
                            mkCall T ACT_ENTER ev].
Proof.
  intros Hedges Hpre HT Hguard.
  unfold _SmProcessEvent. rewrite Hedges, SmProcessEvent_scan_app, Hpre. cbn.
  destruct (SmProcessEvent_scan_unconsumed tbl pre ev r r1 Hpre) as (Hinst & _).
  rewrite Z.eqb_refl, Hinst.
  destruct (Z.eqb_spec (pCurrState (inst r)) T) as [Heq|_]; [congruence|].
  rewrite invoke_eq, Hguard, !invoke_eq. cbn.
  eexists. split; [reflexivity|]. cbn. rewrite Hinst.
  split; [reflexivity|]. rewrite <- !app_assoc. reflexivity.
Qed.

(** A matching self-loop edge, after a prefix that did not consume the
    event. *)
Lemma SmProcessEvent_self_loop (pre post : list tStateGuard)
    (ev : tStateEvent) (r r1 : tRun W) :
  mpNextStates (tbl (pCurrState (inst r))) =
    pre ++ mkGuard (mID ev) (pCurrState (inst r)) :: post ->
  _SmProcessEvent_scan tbl pre ev r = (false, r1) ->
  _SmProcessEvent tbl r ev =
    (true, snd (invoke tbl (pCurrState (inst r)) ev ACT_INTERNAL
                  (xlog LOG_DEBUG
                     (MsgInternal (pCurrState (inst r)) (mID ev) (mData ev)) r1))).
Proof.
  intros Hedges Hpre.
  unfold _SmProcessEvent. rewrite Hedges, SmProcessEvent_scan_app, Hpre. cbn.
  destruct (SmProcessEvent_scan_unconsumed tbl pre ev r r1 Hpre) as (Hinst & _).
  rewrite Z.eqb_refl, Hinst, Z.eqb_refl, !invoke_eq. reflexivity.
Qed.

(** C10. If the transition protocol leaves an event unconsumed, the
    instance (current state, both queues, the initialized flag) is exactly
    as before the call; the entry points run were guards only, and every
    edge matching the event id leads to another state whose guard was
    asked. *)
Theorem SmProcessEvent_unconsumed_frame (r r' : tRun W) (ev : tStateEvent) :
  _SmProcessEvent tbl r ev = (false, r') ->
  inst r' = inst r /\
  pCurrState (inst r') = pCurrState (inst r) /\
  activeEvtQueue (inst r') = activeEvtQueue (inst r) /\
  deferredEvtQueue (inst r') = deferredEvtQueue (inst r) /\
  exists gs, calls r' = calls r ++ gs /\
    Forall (fun c => action c = ACT_GUARD /\ event c = ev) gs /\
    Forall (fun e => gID e = mID ev ->
                     mStInfo e <> pCurrState (inst r) /\
                     In (mkCall (mStInfo e) ACT_GUARD ev) gs)
           (mpNextStates (tbl (pCurrState (inst r)))).
Proof.
  intros H. apply SmProcessEvent_scan_unconsumed in H as (Hinst & gs & Hgs).
  rewrite Hinst. repeat (split; [reflexivity|]). exists gs. exact Hgs.
Qed.

(** C3. The edge list is scanned in declared order: when the edges before
    a matching edge did not consume the event (they do not match, or
    their guards rejected) and the guard of that edge's target accepts,
    the instance moves to that target, after one Exit of the old state
    and before one Enter of the new one.  In particular, with the edge
    list [(evtX -> B); (evtX -> C)] in state A, B's guard rejecting and
    C's accepting, the event is consumed, the instance ends in C and not
    in B, and A's Exit and C's Enter are each invoked exactly once (and no
    other Exit or Enter is). *)
Theorem SmProcessEvent_first_accepting_edge_wins :
  (forall (pre post : list tStateGuard) (T : tStateRef) (ev : tStateEvent)
          (r r1 : tRun W),
     mpNextStates (tbl (pCurrState (inst r))) = pre ++ mkGuard (mID ev) T :: post ->
     _SmProcessEvent_scan tbl pre ev r = (false, r1) ->
     T <> pCurrState (inst r) ->
     snd (mEntry (tbl T) ev ACT_GUARD (world r1)) = true ->
     exists r' gs, _SmProcessEvent tbl r ev = (true, r') /\
       pCurrState (inst r') = T /\
       Forall (fun c => action c = ACT_GUARD /\ event c = ev) gs /\
       calls r' = calls r ++ gs ++ [mkCall T ACT_GUARD ev;
                                    mkCall (pCurrState (inst r)) ACT_EXIT ev;
                                    mkCall T ACT_ENTER ev]) /\
  (forall (A B C : tStateRef) (ev : tStateEvent) (r : tRun W) (w1 w2 : W),
     pCurrState (inst r) = A ->
     mpNextStates (tbl A) = [mkGuard (mID ev) B; mkGuard (mID ev) C] ->
     A <> B -> A <> C -> B <> C ->
     mEntry (tbl B) ev ACT_GUARD (world r) = (w1, false) ->
     mEntry (tbl C) ev ACT_GUARD w1 = (w2, true) ->
     exists r' delta, _SmProcessEvent tbl r ev = (true, r') /\
       pCurrState (inst r') = C /\ pCurrState (inst r') <> B /\
       calls r' = calls r ++ delta /\
       delta = [mkCall B ACT_GUARD ev; mkCall C ACT_GUARD ev;
                mkCall A ACT_EXIT ev; mkCall C ACT_ENTER ev] /\
       count_calls A ACT_EXIT delta = 1%nat /\
       count_calls C ACT_ENTER delta = 1%nat /\
       count_action ACT_EXIT delta = 1%nat /\
       count_action ACT_ENTER delta = 1%nat).
Proof.
  split.
  - intros pre post T ev r r1 Hedges Hpre HT Hguard.
    destruct (SmProcessEvent_first_accept pre post T ev r r1 Hedges Hpre HT Hguard)
      as (r' & Hrun & Hinst & Hcalls).
    destruct (SmProcessEvent_scan_unconsumed tbl pre ev r r1 Hpre)
      as (_ & gs & Hgs & Hall & _).
    exists r', gs. split; [exact Hrun|]. split; [now rewrite Hinst|].
    split; [exact Hall|]. rewrite Hcalls, Hgs, <- app_assoc. reflexivity.
  - intros A B C ev r w1 w2 HA Hedges HAB HAC HBC HgB HgC.
    assert (Hpre : _SmProcessEvent_scan tbl [mkGuard (mID ev) B] ev r =
              (false, xlog LOG_DEBUG (MsgRejectedBy B (mID ev) (mData ev))
                        (mkRun (inst r) w1 (calls r ++ [mkCall B ACT_GUARD ev]) (logged r)))).
    { cbn. rewrite Z.eqb_refl, HA.
      destruct (Z.eqb_spec A B); [contradiction|].
      rewrite invoke_eq, HgB. reflexivity. }
    pose proof (fun H1 => SmProcessEvent_first_accept
                          [mkGuard (mID ev) B] [] C ev r _ H1 Hpre) as Hfa.
    destruct Hfa as (r' & Hrun & Hinst & Hcalls).
    + rewrite HA. exact Hedges.
    + congruence.
    + cbn. now rewrite HgC.
    + exists r', [mkCall B ACT_GUARD ev; mkCall C ACT_GUARD ev;
                  mkCall A ACT_EXIT ev; mkCall C ACT_ENTER ev].
      split; [exact Hrun|]. rewrite Hinst. cbn.
      split; [reflexivity|]. split; [congruence|].
      split; [rewrite Hcalls; cbn; rewrite <- app_assoc, HA; reflexivity|].
      split; [reflexivity|].
      unfold count_calls, count_action, is_call. cbn.
      rewrite !Z.eqb_refl. cbn.
      destruct (Z.eqb_spec B A); [congruence|].
      destruct (Z.eqb_spec C A); [congruence|].
      destruct (Z.eqb_spec B C); [congruence|].
      destruct (Z.eqb_spec A C); [congruence|].
      cbn. auto.
Qed.

(** C5. When the scan reaches a matching edge whose target is the current
    state (the edges before it did not consume the event), the event is
    consumed by one invocation of the current state's entry point with
    the Internal action: no Exit and no Enter is invoked, the instance
    (and so its current state) is unchanged, and the edges after the
    self-loop are not looked at, the outcome being the same whatever
    they are. *)
Theorem SmProcessEvent_self_loop_internal (pre post : list tStateGuard)
    (ev : tStateEvent) (r r1 : tRun W) :
  mpNextStates (tbl (pCurrState (inst r))) =
    pre ++ mkGuard (mID ev) (pCurrState (inst r)) :: post ->
  _SmProcessEvent_scan tbl pre ev r = (false, r1) ->
  exists r' gs,
    _SmProcessEvent tbl r ev = (true, r') /\
    r' = snd (invoke tbl (pCurrState (inst r)) ev ACT_INTERNAL
                (xlog LOG_DEBUG
                   (MsgInternal (pCurrState (inst r)) (mID ev) (mData ev)) r1)) /\
    inst r' = inst r /\
    pCurrState (inst r') = pCurrState (inst r) /\
    calls r' = calls r ++ gs ++ [mkCall (pCurrState (inst r)) ACT_INTERNAL ev] /\
    count_calls (pCurrState (inst r)) ACT_INTERNAL
      (gs ++ [mkCall (pCurrState (inst r)) ACT_INTERNAL ev]) = 1%nat /\
    count_action ACT_INTERNAL (gs ++ [mkCall (pCurrState (inst r)) ACT_INTERNAL ev]) = 1%nat /\
    count_action ACT_EXIT (gs ++ [mkCall (pCurrState (inst r)) ACT_INTERNAL ev]) = 0%nat /\
    count_action ACT_ENTER (gs ++ [mkCall (pCurrState (inst r)) ACT_INTERNAL ev]) = 0%nat.
Proof.
  intros Hedges Hpre.
  pose proof (SmProcessEvent_self_loop pre post ev r r1 Hedges Hpre) as Hrun.
  destruct (SmProcessEvent_scan_unconsumed tbl pre ev r r1 Hpre)
    as (Hinst & gs & Hcalls & Hgs & _).
  eexists _, gs. split; [exact Hrun|]. split; [reflexivity|].
  rewrite invoke_eq. cbn. rewrite Hinst, Hcalls, <- app_assoc.
  repeat (split; [reflexivity|]).
  rewrite count_calls_app, !count_action_app.
  rewrite (count_calls_guards _ _ ev gs), !(count_action_guards _ ev gs)
    by (assumption || discriminate).
  unfold count_calls, count_action, is_call. cbn. rewrite Z.eqb_refl. auto.
Qed.

End ProtocolClaims.

(* ===================================================================== *)
(** ** Deferral and the public enqueue                                    *)
(* ===================================================================== *)

Lemma SmDeferEvent_scan_In (ids : list tStEventID) (id : tStEventID) :
  _SmDeferEvent_scan ids id = true <-> In id ids.
Proof.
  induction ids as [|x ids IH]; cbn; [split; [discriminate|contradiction]|].
  destruct (Z.eqb_spec id x) as [->|Hne].
  - split; auto.
  - rewrite IH. split; [auto|]. intros [Heq|Hin]; [congruence|exact Hin].
Qed.

Lemma event_eta (ev : tStateEvent) : mkEvent (mID ev) (mData ev) = ev.
Proof. destruct ev; reflexivity. Qed.

Lemma instance_eta (i : tSmInstance) :
  mkInstance (pCurrState i) (activeEvtQueue i) (deferredEvtQueue i) (bInitFinished i) = i.
Proof. destruct i; reflexivity. Qed.

Section Deferral.

Context {W : Type}.
Variable tbl : tStateRef -> tStateInfo W.

Lemma SmDeferEvent_deferrable (r : tRun W) (ev : tStateEvent) :
  In (mID ev) (mpDeferEvtIDs (tbl (pCurrState (inst r)))) ->
  _SmDeferEvent tbl r ev = _SmEnqueueDeferredEvent r (mID ev) (mData ev).
Proof. intros H. unfold _SmDeferEvent. apply SmDeferEvent_scan_In in H. now rewrite H. Qed.

Lemma SmDeferEvent_not_deferrable (r : tRun W) (ev : tStateEvent) :
  ~ In (mID ev) (mpDeferEvtIDs (tbl (pCurrState (inst r)))) ->
  _SmDeferEvent tbl r ev =
    xlog LOG_DEBUG (MsgState (pCurrState (inst r)))
      (xlog LOG_ERROR (MsgEventUnused (mID ev) (mData ev)) r).
Proof.
  intros H. unfold _SmDeferEvent.
  destruct (_SmDeferEvent_scan _ _) eqn:Hscan; [|reflexivity].
  apply SmDeferEvent_scan_In in Hscan. contradiction.
Qed.

(** What [_SmDeferEvent] leaves alone in either case. *)
Lemma SmDeferEvent_frame (r : tRun W) (ev : tStateEvent) :
  pCurrState (inst (_SmDeferEvent tbl r ev)) = pCurrState (inst r) /\
  activeEvtQueue (inst (_SmDeferEvent tbl r ev)) = activeEvtQueue (inst r) /\
  bInitFinished (inst (_SmDeferEvent tbl r ev)) = bInitFinished (inst r) /\
  world (_SmDeferEvent tbl r ev) = world r /\
  calls (_SmDeferEvent tbl r ev) = calls r /\
  dq_def_ids (logged (_SmDeferEvent tbl r ev)) = dq_def_ids (logged r) /\
  (deferredEvtQueue (inst (_SmDeferEvent tbl r ev)) = deferredEvtQueue (inst r) \/
   deferredEvtQueue (inst (_SmDeferEvent tbl r ev)) =
     _SmEnqueueEvent (deferredEvtQueue (inst r)) (mID ev) (mData ev)).
Proof.
  unfold _SmDeferEvent. destruct (_SmDeferEvent_scan _ _); cbn;
    rewrite ?dq_def_ids_app, ?app_nil_r; auto 10.
Qed.

(** C8. An unconsumed event whose id is in the current state's list of
    deferrable ids is enqueued, id and payload, onto the deferred queue by
    the ordinary enqueue (so it is appended when there is room and dropped
    when the queue is full); an event whose id is not in the list is
    dropped, and the instance - both queues and the current state - is
    unchanged.  The current state, the active queue and the application
    are untouched in both cases. *)
Theorem SmDeferEvent_defers_or_drops (r : tRun W) (ev : tStateEvent) :
  (In (mID ev) (mpDeferEvtIDs (tbl (pCurrState (inst r)))) ->
     inst (_SmDeferEvent tbl r ev) =
       set_deferredEvtQueue (inst r)
         (_SmEnqueueEvent (deferredEvtQueue (inst r)) (mID ev) (mData ev)) /\
     (queue_wf (deferredEvtQueue (inst r)) ->
      mQCount (deferredEvtQueue (inst r)) < mQSize (deferredEvtQueue (inst r)) ->
      q_contents (deferredEvtQueue (inst (_SmDeferEvent tbl r ev))) =
        q_contents (deferredEvtQueue (inst r)) ++ [ev]) /\
     (mQCount (deferredEvtQueue (inst r)) = mQSize (deferredEvtQueue (inst r)) ->
      inst (_SmDeferEvent tbl r ev) = inst r)) /\
  (~ In (mID ev) (mpDeferEvtIDs (tbl (pCurrState (inst r)))) ->
     inst (_SmDeferEvent tbl r ev) = inst r) /\
  pCurrState (inst (_SmDeferEvent tbl r ev)) = pCurrState (inst r) /\
  activeEvtQueue (inst (_SmDeferEvent tbl r ev)) = activeEvtQueue (inst r) /\
  world (_SmDeferEvent tbl r ev) = world r /\
  calls (_SmDeferEvent tbl r ev) = calls r.
Proof.
  split; [|split].
  - intros Hin. rewrite (SmDeferEvent_deferrable r ev Hin). cbn.
    split; [reflexivity|]. split.
    + intros Hwf Hroom.
      destruct (enqueue_wf _ (mID ev) (mData ev) Hwf Hroom) as (_ & Hcont & _).
      rewrite Hcont, event_eta. reflexivity.
    + intros Hfull. rewrite enqueue_when_full by exact Hfull.
      unfold set_deferredEvtQueue. apply instance_eta.
  - intros Hnin. rewrite (SmDeferEvent_not_deferrable r ev Hnin). reflexivity.
  - destruct (SmDeferEvent_frame r ev) as (H1 & H2 & _ & H4 & H5 & _). auto.
Qed.

(** C9. While the initialized flag is false, [SmEnqueueEvent] drops the
    event and leaves the whole instance as it is (the active queue with
    its count, head, tail and contents included); once [SmInit] has run
    the flag is true, and with the flag true [SmEnqueueEvent] is the
    enqueue on the active queue, every other field being kept. *)
Theorem SmEnqueueEvent_needs_init :
  (forall (r : tRun W) (evtID : tStEventID) (evtData : tStEventData),
     bInitFinished (inst r) = false ->
     inst (SmEnqueueEvent r evtID evtData) = inst r /\
     world (SmEnqueueEvent r evtID evtData) = world r /\
     calls (SmEnqueueEvent r evtID evtData) = calls r) /\
  (forall (r : tRun W) (st : tStateRef), bInitFinished (inst (SmInit r st)) = true) /\
  (forall (r : tRun W) (evtID : tStEventID) (evtData : tStEventData),
     bInitFinished (inst r) = true ->
     inst (SmEnqueueEvent r evtID evtData) =
       set_activeEvtQueue (inst r)
         (_SmEnqueueEvent (activeEvtQueue (inst r)) evtID evtData)) /\
  (forall (r : tRun W) (st : tStateRef) (evtID : tStEventID) (evtData : tStEventData),
     0 < mQSize (activeEvtQueue (inst r)) < 65536 ->
     Z.of_nat (length (mpQData (activeEvtQueue (inst r)))) = mQSize (activeEvtQueue (inst r)) ->
     q_contents (activeEvtQueue (inst (SmEnqueueEvent (SmInit r st) evtID evtData))) =
       [mkEvent evtID evtData]).
Proof.
  split; [|split; [|split]].
  - intros r id d Hinit. unfold SmEnqueueEvent. rewrite Hinit. cbn. auto.
  - reflexivity.
  - intros r id d Hinit. unfold SmEnqueueEvent. rewrite Hinit. reflexivity.
  - intros r st id d Hsz Hlen. cbn.
    destruct (reset_wf (activeEvtQueue (inst r)) Hsz Hlen) as (Hwf & Hnil).
    destruct (enqueue_wf _ id d Hwf) as (_ & Hcont & _); [cbn; lia|].
    rewrite Hcont, Hnil. reflexivity.
Qed.

End Deferral.

(** C7 (as amended). Enqueue on a full queue does nothing at all: the
    queue returned is the queue given, count, head, tail and stored events
    included, so its count is still its capacity and its contents are still
    dequeued in order; the newest event is dropped.  Nothing signals the
    overflow: [_SmEnqueueEvent] returns no value, and the one line
    [SmEnqueueEvent] logs is its ordinary line with the event id and the
    count. *)
Theorem enqueue_full_silent_noop :
  (forall (q : tSmQueueEvt) (evtID : tStEventID) (evtData : tStEventData),
     mQCount q = mQSize q ->
     _SmEnqueueEvent q evtID evtData = q /\
     mQCount (_SmEnqueueEvent q evtID evtData) = mQSize q /\
     q_contents (_SmEnqueueEvent q evtID evtData) = q_contents q /\
     forall ops, run_ops ops (_SmEnqueueEvent q evtID evtData) = run_ops ops q) /\
  (forall (W : Type) (r : tRun W) (evtID : tStEventID) (evtData : tStEventData),
     bInitFinished (inst r) = true ->
     mQCount (activeEvtQueue (inst r)) = mQSize (activeEvtQueue (inst r)) ->
     inst (SmEnqueueEvent r evtID evtData) = inst r /\
     world (SmEnqueueEvent r evtID evtData) = world r /\
     calls (SmEnqueueEvent r evtID evtData) = calls r /\
     logged (SmEnqueueEvent r evtID evtData) =
       logged r ++ [(LOG_DEBUG, MsgEnqueue evtID (mQSize (activeEvtQueue (inst r))))]).
Proof.
  split.
  - intros q id d Hfull. rewrite enqueue_when_full by exact Hfull. auto.
  - intros W r id d Hinit Hfull. unfold SmEnqueueEvent. rewrite Hinit. cbn.
    rewrite enqueue_when_full by exact Hfull. rewrite Hfull.
    split; [apply instance_eta|]. auto.
Qed.

(* ===================================================================== *)
(** ** The two passes and the engine loop                                 *)
(* ===================================================================== *)

Lemma dequeue_count (q q' : tSmQueueEvt) (ev : tStateEvent) :
  is_u16 (mQCount q) -> _SmDequeueEvent q = Some (ev, q') ->
  mQCount q' = mQCount q - 1 /\ 0 < mQCount q.
Proof.
  intros Hc. unfold _SmDequeueEvent.
  destruct (_SmQEmpty q) eqn:He; [discriminate|]. apply SmQEmpty_false in He.
  intros [= _ <-]. cbn. unfold is_u16 in Hc. rewrite wrap16_small by lia. lia.
Qed.

Lemma dequeue_some (q : tSmQueueEvt) :
  mQCount q <> 0 -> exists ev q', _SmDequeueEvent q = Some (ev, q').
Proof.
  intros H. unfold _SmDequeueEvent. apply SmQEmpty_false in H. rewrite H. eauto.
Qed.

Section Passes.

Context {W : Type}.
Variable tbl : tStateRef -> tStateInfo W.

Lemma SmProcessEvent_frame (r r' : tRun W) (ev : tStateEvent) (b : bool) :
  _SmProcessEvent tbl r ev = (b, r') -> scan_frame r r'.
Proof. apply SmProcessEvent_scan_frame. Qed.

(** One iteration of the loop of [_SmProcessActiveEvents]. *)
Lemma active_loop_empty (n : nat) (c : Z) (r : tRun W) :
  mQCount (activeEvtQueue (inst r)) = 0 ->
  _SmProcessActiveEvents_loop tbl (S n) c r = Some (c, r).
Proof.
  intros H. cbn [_SmProcessActiveEvents_loop]. unfold _SmDequeueActiveEvent.
  now rewrite dequeue_when_empty.
Qed.

Lemma active_loop_step (n : nat) (c : Z) (r : tRun W) (ev : tStateEvent) (q' : tSmQueueEvt) :
  _SmDequeueEvent (activeEvtQueue (inst r)) = Some (ev, q') ->
  _SmProcessActiveEvents_loop tbl (S n) c r =
    (let r1 := xlog LOG_DEBUG (MsgSmDequeue (mID ev) (mQCount q'))
                 (with_inst r (set_activeEvtQueue (inst r) q')) in
     if fst (_SmProcessEvent tbl r1 ev) then
       _SmProcessActiveEvents_loop tbl n (c + 1)
         (xlog LOG_DEBUG (MsgConsumed (mID ev) (mQCount q'))
            (snd (_SmProcessEvent tbl r1 ev)))
     else
       _SmProcessActiveEvents_loop tbl n c
         (_SmDeferEvent tbl (snd (_SmProcessEvent tbl r1 ev)) ev)).
Proof.
  intros H. cbn [_SmProcessActiveEvents_loop]. unfold _SmDequeueActiveEvent.
  rewrite H. cbn zeta. cbn [inst with_inst xlog set_activeEvtQueue activeEvtQueue].
  destruct (_SmProcessEvent tbl _ ev) as [b r2] eqn:Hp. cbn [fst snd].
  apply SmProcessEvent_frame in Hp as [Ha _ _ _]. cbn in Ha.
  destruct b; [rewrite Ha|]; reflexivity.
Qed.

(** The active pass returns, with the active queue drained. *)
Lemma active_loop_drains (n : nat) (c : Z) (r : tRun W) :
  mQCount (activeEvtQueue (inst r)) = Z.of_nat n -> Z.of_nat n < 65536 ->
  exists c' r', _SmProcessActiveEvents_loop tbl (S n) c r = Some (c', r') /\
    mQCount (activeEvtQueue (inst r')) = 0 /\ c <= c' /\
    bInitFinished (inst r') = bInitFinished (inst r) /\
    dq_def_ids (logged r') = dq_def_ids (logged r).
Proof.
  revert c r. induction n as [|n IH]; intros c r Hcnt Hlt.
  - rewrite active_loop_empty by exact Hcnt. eexists _, _. split; [reflexivity|].
    split; [exact Hcnt|]. split; [lia|]. split; reflexivity.
  - destruct (dequeue_some (activeEvtQueue (inst r))) as (ev & q' & Hdq); [lia|].
    assert (Hu : is_u16 (mQCount (activeEvtQueue (inst r)))) by (unfold is_u16; lia).
    destruct (dequeue_count _ _ _ Hu Hdq) as (Hc' & _).
    rewrite (active_loop_step _ _ _ _ _ Hdq). cbn zeta.
    set (r1 := xlog _ _ _).
    destruct (_SmProcessEvent tbl r1 ev) as [b r2] eqn:Hp. cbn [fst snd].
    apply SmProcessEvent_frame in Hp as [Ha _ Hi Hl]. subst r1. cbn in Ha, Hi, Hl.
    rewrite dq_def_ids_app, app_nil_r in Hl.
    destruct b.
    + destruct (IH (c + 1) (xlog LOG_DEBUG (MsgConsumed (mID ev) (mQCount q')) r2))
        as (c' & r' & Hrun & Hz & Hle & Hinit & Hlog); [cbn; rewrite Ha; lia|lia|].
      exists c', r'. split; [exact Hrun|]. split; [exact Hz|]. split; [lia|].
      cbn in Hinit, Hlog. rewrite dq_def_ids_app, app_nil_r in Hlog.
      split; congruence.
    + destruct (SmDeferEvent_frame tbl r2 ev) as (_ & Hda & Hdi & _ & _ & Hdl & _).
      destruct (IH c (_SmDeferEvent tbl r2 ev))
        as (c' & r' & Hrun & Hz & Hle & Hinit & Hlog); [rewrite Hda, Ha; lia|lia|].
      exists c', r'. split; [exact Hrun|]. split; [exact Hz|]. split; [lia|].
      split; congruence.
Qed.

Lemma SmProcessActiveEvents_returns (r : tRun W) :
  is_u16 (mQCount (activeEvtQueue (inst r))) ->
  exists b r', _SmProcessActiveEvents tbl r = Some (b, r') /\
    mQCount (activeEvtQueue (inst r')) = 0 /\
    dq_def_ids (logged r') = dq_def_ids (logged r).
Proof.
  intros Hc. unfold _SmProcessActiveEvents, is_u16 in *.
  destruct (active_loop_drains (Z.to_nat (mQCount (activeEvtQueue (inst r)))) 0 r)
    as (c' & r' & Hrun & Hz & _ & _ & Hlog); [lia|lia|].
  rewrite Hrun. eauto.
Qed.

Lemma SmProcessActiveEvents_empty (r : tRun W) :
  mQCount (activeEvtQueue (inst r)) = 0 ->
  _SmProcessActiveEvents tbl r = Some (false, r).
Proof.
  intros H. unfold _SmProcessActiveEvents. rewrite active_loop_empty by exact H.
  reflexivity.
Qed.

(** One iteration of the loop of [_SmProcessDeferredEvents]. *)
Lemma deferred_loop_empty (n : nat) (M c idx : Z) (r : tRun W) :
  mQCount (deferredEvtQueue (inst r)) = 0 ->
  _SmProcessDeferredEvents_loop tbl (S n) M c idx r = Some (c, idx, r).
Proof.
  intros H. cbn [_SmProcessDeferredEvents_loop]. unfold _SmDequeueDeferredEvent.
  now rewrite dequeue_when_empty.
Qed.

Lemma deferred_loop_step (n : nat) (M c idx : Z) (r : tRun W)
    (ev : tStateEvent) (q' : tSmQueueEvt) :
  _SmDequeueEvent (deferredEvtQueue (inst r)) = Some (ev, q') ->
  _SmProcessDeferredEvents_loop tbl (S n) M c idx r =
    (if idx + 1 <? M then
       _SmProcessDeferredEvents_loop tbl n M
         (fst (deferred_iter tbl r ev q' c)) (idx + 1) (snd (deferred_iter tbl r ev q' c))
     else Some (fst (deferred_iter tbl r ev q' c), idx + 1, snd (deferred_iter tbl r ev q' c))).
Proof.
  intros H. cbn [_SmProcessDeferredEvents_loop]. unfold _SmDequeueDeferredEvent, deferred_iter.
  rewrite H. cbn zeta. cbn [inst with_inst xlog set_deferredEvtQueue deferredEvtQueue].
  destruct (_SmProcessEvent tbl _ ev) as [b r2]. cbn [fst snd].
  destruct b; reflexivity.
Qed.

Lemma deferred_iter_frame (r : tRun W) (ev : tStateEvent) (q' : tSmQueueEvt) (c : Z) :
  activeEvtQueue (inst (snd (deferred_iter tbl r ev q' c))) = activeEvtQueue (inst r) /\
  bInitFinished (inst (snd (deferred_iter tbl r ev q' c))) = bInitFinished (inst r) /\
  dq_def_ids (logged (snd (deferred_iter tbl r ev q' c))) = dq_def_ids (logged r) ++ [mID ev] /\
  c <= fst (deferred_iter tbl r ev q' c) <= c + 1 /\
  (deferredEvtQueue (inst (snd (deferred_iter tbl r ev q' c))) = q' /\
     (fst (_SmProcessEvent tbl (xlog LOG_DEBUG (MsgDqDefEvent (mID ev) (mQCount q'))
              (with_inst r (set_deferredEvtQueue (inst r) q'))) ev) = true ->
      fst (deferred_iter tbl r ev q' c) = c + 1) \/
   deferredEvtQueue (inst (snd (deferred_iter tbl r ev q' c))) =
     _SmEnqueueEvent q' (mID ev) (mData ev) /\
   fst (deferred_iter tbl r ev q' c) = c).
Proof.
  unfold deferred_iter. cbn zeta. set (r1 := xlog _ _ _).
  destruct (_SmProcessEvent tbl r1 ev) as [b r2] eqn:Hp. cbn [fst snd].
  apply SmProcessEvent_frame in Hp as [Ha Hd Hi Hl]. subst r1. cbn in Ha, Hd, Hi, Hl.
  rewrite dq_def_ids_app in Hl. cbn in Hl.
  destruct b; cbn [fst snd].
  - repeat (split; [assumption || lia|]). left. auto.
  - destruct (SmDeferEvent_frame tbl r2 ev) as (_ & Hda & Hdi & _ & _ & Hdl & Hdq).
    repeat (split; [congruence || lia|]).
    destruct Hdq as [Hdq|Hdq]; [left|right]; split; congruence.
Qed.

End Passes.

Section Replay.

Context {W : Type}.
Variable tbl : tStateRef -> tStateInfo W.

(** The loop index never passes the snapshot, whatever the queue holds. *)
Lemma deferred_loop_bounded (n : nat) (M c idx : Z) (r : tRun W) :
  idx < M -> M - idx <= Z.of_nat n ->
  exists c' idx' r' ids,
    _SmProcessDeferredEvents_loop tbl n M c idx r = Some (c', idx', r') /\
    idx <= idx' <= M /\ c <= c' /\ c' - c <= idx' - idx /\
    dq_def_ids (logged r') = dq_def_ids (logged r) ++ ids /\
    Z.of_nat (length ids) = idx' - idx /\
    activeEvtQueue (inst r') = activeEvtQueue (inst r).
Proof.
  revert c idx r. induction n as [|n IH]; intros c idx r Hlt Hfuel; [lia|].
  destruct (_SmDequeueEvent (deferredEvtQueue (inst r))) as [[ev q']|] eqn:Hdq.
  - rewrite (deferred_loop_step tbl _ _ _ _ _ _ _ Hdq).
    destruct (deferred_iter_frame tbl r ev q' c) as (Ha & _ & Hl & Hc & _).
    destruct (Z.ltb_spec (idx + 1) M) as [Hmore|Hlast].
    + destruct (IH (fst (deferred_iter tbl r ev q' c)) (idx + 1)
                   (snd (deferred_iter tbl r ev q' c)))
        as (c' & idx' & r' & ids & Hrun & Hidx & Hcc & Hci & Hlog & Hlen & Hact); [lia|lia|].
      exists c', idx', r', (mID ev :: ids). split; [exact Hrun|].
      split; [lia|]. split; [lia|]. split; [lia|].
      split; [rewrite Hlog, Hl, <- app_assoc; reflexivity|].
      split; [cbn [length]; lia|congruence].
    + exists (fst (deferred_iter tbl r ev q' c)), (idx + 1),
             (snd (deferred_iter tbl r ev q' c)), [mID ev].
      split; [reflexivity|]. split; [lia|]. split; [lia|]. split; [lia|].
      split; [exact Hl|]. split; [cbn; lia|exact Ha].
  - cbn [_SmProcessDeferredEvents_loop]. unfold _SmDequeueDeferredEvent. rewrite Hdq.
    exists c, idx, r, []. split; [reflexivity|]. rewrite app_nil_r.
    split; [lia|]. split; [lia|]. split; [lia|]. split; [reflexivity|].
    split; [cbn; lia|reflexivity].
Qed.

(** On a well-formed queue the pass takes off exactly the events that
    were queued when it started, in order; what it puts back stays behind
    them. *)
Lemma deferred_loop_exact (rem : list tStateEvent) :
  forall (red : list tStateEvent) (n : nat) (M c idx : Z) (r : tRun W),
  queue_wf (deferredEvtQueue (inst r)) ->
  q_contents (deferredEvtQueue (inst r)) = rem ++ red ->
  rem <> [] -> idx + Z.of_nat (length rem) = M -> (length rem <= n)%nat ->
  exists c' r' red',
    _SmProcessDeferredEvents_loop tbl n M c idx r = Some (c', M, r') /\
    dq_def_ids (logged r') = dq_def_ids (logged r) ++ (mID <$> rem) /\
    queue_wf (deferredEvtQueue (inst r')) /\
    q_contents (deferredEvtQueue (inst r')) = red ++ red' /\
    sublist red' rem /\
    Z.of_nat (length red') + (c' - c) <= Z.of_nat (length rem).
Proof.
  induction rem as [|ev rem IH]; intros red n M c idx r Hwf Hcont Hne HM Hfuel;
    [contradiction|].
  destruct n as [|n]; [cbn in Hfuel; lia|].
  assert (Hcnt : mQCount (deferredEvtQueue (inst r)) =
                 Z.of_nat (length ((ev :: rem) ++ red))).
  { rewrite <- Hcont, contents_length. destruct Hwf as ((? & _) & _). lia. }
  destruct (dequeue_wf _ Hwf) as (ev0 & q' & Hdq & Hwf' & Hcons & Hcnt');
    [rewrite Hcnt; cbn [length app]; lia|].
  rewrite Hcont in Hcons. cbn [app] in Hcons. injection Hcons as <- Hq'.
  rewrite (deferred_loop_step tbl _ _ _ _ _ _ _ Hdq).
  destruct (deferred_iter_frame tbl r ev q' c) as (_ & _ & Hl & Hc & Hq).
  set (c1 := fst (deferred_iter tbl r ev q' c)) in *.
  set (r1 := snd (deferred_iter tbl r ev q' c)) in *.
  assert (Hroom : mQCount q' < mQSize q').
  { destruct Hwf as ((? & _) & _). rewrite (dequeue_size _ _ _ Hdq). lia. }
  (* the queue after the iteration: nothing or [ev] was put back *)
  assert (Hafter : exists back,
            queue_wf (deferredEvtQueue (inst r1)) /\
            q_contents (deferredEvtQueue (inst r1)) = rem ++ red ++ back /\
            sublist back [ev] /\ Z.of_nat (length back) + (c1 - c) <= 1).
  { destruct Hq as [(Hsame & _)|(Henq & Hc1)].
    - exists []. rewrite Hsame, app_nil_r. split; [assumption|]. split; [congruence|].
      split; [apply sublist_nil_l|]. cbn. lia.
    - exists [ev]. rewrite Henq.
      destruct (enqueue_wf q' (mID ev) (mData ev) Hwf' Hroom) as (Hwf2 & Hc2 & _).
      rewrite Hc2, event_eta, <- Hq', <- app_assoc.
      split; [assumption|]. split; [reflexivity|]. split; [reflexivity|]. cbn. lia. }
  destruct Hafter as (back & Hwf1 & Hcont1 & Hsub & Hlen).
  cbn [length] in HM, Hfuel.
  destruct rem as [|ev2 rem].
  - (* last event of the snapshot *)
    destruct (Z.ltb_spec (idx + 1) M) as [Hmore|_]; [cbn in HM; lia|].
    exists c1, r1, back. replace (idx + 1) with M by (cbn in HM; lia).
    split; [reflexivity|]. split; [exact Hl|]. split; [exact Hwf1|].
    split; [exact Hcont1|]. split; [exact Hsub|]. cbn [length]. lia.
  - destruct (Z.ltb_spec (idx + 1) M) as [_|Hlast]; [|cbn [length] in HM; lia].
    rewrite app_assoc in Hcont1.
    destruct (IH (red ++ back) n M c1 (idx + 1) r1 Hwf1)
      as (c' & r' & red' & Hrun & Hlog & Hwf2 & Hcont2 & Hsub2 & Hlen2);
      [rewrite Hcont1, <- app_assoc; reflexivity|discriminate|lia|lia|].
    exists c', r', (back ++ red'). split; [exact Hrun|].
    split; [rewrite Hlog, Hl, <- app_assoc; reflexivity|].
    split; [exact Hwf2|]. split; [rewrite Hcont2, <- app_assoc; reflexivity|].
    split; [change (ev :: ev2 :: rem) with ([ev] ++ ev2 :: rem);
            apply sublist_app; assumption|].
    rewrite length_app. cbn [length] in *. lia.
Qed.

(** C4. A deferred-replay pass returns; with [M] the count of the deferred
    queue when the pass starts, the loop index [idx], which counts the
    events dequeued and processed, ends no greater than [M], and exactly
    [idx] events are reported as dequeued, however many were put back on
    the deferred queue during the pass.  On a well-formed queue the events
    dequeued are exactly the [M] events queued at the start, each once and
    in order, and the events put back during the pass (a subsequence of
    them) are what the queue holds afterwards: none is tried twice. *)
Theorem SmProcessDeferredEvents_bounded (r : tRun W) :
  0 <= mQCount (deferredEvtQueue (inst r)) ->
  exists c idx r' ids,
    _SmProcessDeferredEvents_loop tbl
      (S (Z.to_nat (mQCount (deferredEvtQueue (inst r)))))
      (mQCount (deferredEvtQueue (inst r))) 0 0 r = Some (c, idx, r') /\
    _SmProcessDeferredEvents tbl r = Some (negb (c =? 0), r') /\
    0 <= idx <= mQCount (deferredEvtQueue (inst r)) /\
    0 <= c <= idx /\
    dq_def_ids (logged r') = dq_def_ids (logged r) ++ ids /\
    Z.of_nat (length ids) = idx /\
    (queue_wf (deferredEvtQueue (inst r)) ->
     idx = mQCount (deferredEvtQueue (inst r)) /\
     ids = mID <$> q_contents (deferredEvtQueue (inst r)) /\
     queue_wf (deferredEvtQueue (inst r')) /\
     sublist (q_contents (deferredEvtQueue (inst r')))
             (q_contents (deferredEvtQueue (inst r))) /\
     mQCount (deferredEvtQueue (inst r')) + c <= mQCount (deferredEvtQueue (inst r))).
Proof.
  intros HM. set (M := mQCount (deferredEvtQueue (inst r))) in *.
  destruct (Z.eq_dec M 0) as [Hz|Hnz].
  - exists 0, 0, r, [].
    assert (Hrun : _SmProcessDeferredEvents_loop tbl (S (Z.to_nat M)) M 0 0 r
                   = Some (0, 0, r)) by (apply deferred_loop_empty; exact Hz).
    split; [exact Hrun|]. unfold _SmProcessDeferredEvents. fold M. rewrite Hrun.
    split; [reflexivity|]. split; [lia|]. split; [lia|]. rewrite app_nil_r.
    split; [reflexivity|]. split; [reflexivity|]. intros Hwf.
    assert (Hnil : q_contents (deferredEvtQueue (inst r)) = []).
    { apply length_zero_iff_nil. rewrite contents_length. fold M. rewrite Hz. reflexivity. }
    rewrite Hnil. split; [lia|]. split; [reflexivity|]. split; [exact Hwf|].
    split; [reflexivity|]. fold M. lia.
  - destruct (deferred_loop_bounded (S (Z.to_nat M)) M 0 0 r)
      as (c & idx & r' & ids & Hrun & Hidx & Hc & Hci & Hlog & Hlen & _); [lia|lia|].
    exists c, idx, r', ids. split; [exact Hrun|].
    unfold _SmProcessDeferredEvents. fold M. rewrite Hrun.
    split; [reflexivity|]. split; [lia|]. split; [lia|]. split; [exact Hlog|].
    split; [lia|]. intros Hwf.
    destruct (deferred_loop_exact (q_contents (deferredEvtQueue (inst r))) []
                (S (Z.to_nat M)) M 0 0 r Hwf)
      as (c' & r'' & red' & Hrun' & Hlog' & Hwf' & Hcont' & Hsub & Hlen').
    + rewrite app_nil_r. reflexivity.
    + intros Hnil. apply (f_equal length) in Hnil. rewrite contents_length in Hnil.
      fold M in Hnil. cbn in Hnil. lia.
    + rewrite contents_length. fold M. lia.
    + rewrite contents_length. fold M. lia.
    + rewrite Hrun in Hrun'. injection Hrun' as Hc' Hidx' Hr'. subst c' r''.
      rewrite Hlog in Hlog'. apply app_inv_head in Hlog'.
      cbn [app] in Hcont'. rewrite Hcont'.
      split; [exact Hidx'|]. split; [exact Hlog'|]. split; [exact Hwf'|].
      split; [exact Hsub|].
      rewrite contents_length in Hlen'. fold M in Hlen'.
      assert (mQCount (deferredEvtQueue (inst r')) = Z.of_nat (length red')).
      { rewrite <- Hcont', contents_length. destruct Hwf' as ((? & _) & _). lia. }
      lia.
Qed.

End Replay.

Section EngineLoop.

Context {W : Type}.
Variable tbl : tStateRef -> tStateInfo W.

(** The deferred pass returns, and leaves the active queue alone. *)
Lemma SmProcessDeferredEvents_returns (r : tRun W) :
  exists b r', _SmProcessDeferredEvents tbl r = Some (b, r') /\
    activeEvtQueue (inst r') = activeEvtQueue (inst r).
Proof.
  unfold _SmProcessDeferredEvents.
  set (M := mQCount (deferredEvtQueue (inst r))).
  destruct (Z.lt_ge_cases 0 M) as [Hpos|Hle].
  - destruct (deferred_loop_bounded tbl (S (Z.to_nat M)) M 0 0 r)
      as (c & idx & r' & ids & Hrun & _ & _ & _ & _ & _ & Hact); [lia|lia|].
    rewrite Hrun. eauto.
  - replace (Z.to_nat M) with 0%nat by lia.
    destruct (_SmDequeueEvent (deferredEvtQueue (inst r))) as [[ev q']|] eqn:Hdq.
    + rewrite (deferred_loop_step tbl _ _ _ _ _ _ _ Hdq).
      destruct (Z.ltb_spec (0 + 1) M); [lia|].
      destruct (deferred_iter_frame tbl r ev q' 0) as (Ha & _).
      eauto.
    + cbn [_SmProcessDeferredEvents_loop]. unfold _SmDequeueDeferredEvent.
      rewrite Hdq. eauto.
Qed.

(** A cycle that starts with an empty active queue consumes nothing,
    performs no replay and changes nothing. *)
Lemma SmEngine_body_idle (r : tRun W) :
  mQCount (activeEvtQueue (inst r)) = 0 -> _SmEngine_body tbl r = Some (false, r).
Proof.
  intros H. unfold _SmEngine_body. rewrite SmProcessActiveEvents_empty by exact H.
  reflexivity.
Qed.

Lemma SmEngine_body_returns (r : tRun W) :
  is_u16 (mQCount (activeEvtQueue (inst r))) ->
  exists b r', _SmEngine_body tbl r = Some (b, r') /\
    mQCount (activeEvtQueue (inst r')) = 0.
Proof.
  intros Hc. unfold _SmEngine_body.
  destruct (SmProcessActiveEvents_returns tbl r Hc) as (b1 & r1 & Hact & Hz & _).
  rewrite Hact. destruct (replay_gate b1 r1); [|eauto].
  destruct (SmProcessDeferredEvents_returns r1) as (b2 & r2 & Hdef & Ha).
  rewrite Hdef. exists b2, r2. split; [reflexivity|]. congruence.
Qed.

(** C1 (as amended). A call of [SmProcessEvents] returns.  Its loop runs
    the cycle again when the deferred replay consumed an event, but a
    cycle performs the replay only if its own active pass consumed an
    event (and the deferred queue is not empty).  The first active pass
    leaves the active queue empty, so a repeated cycle finds nothing to
    consume, performs no replay and changes nothing: the call performs at
    most one deferred replay and returns the state its first cycle left,
    whether or not that replay consumed an event and whether or not the
    deferred queue is still non-empty. *)
Theorem SmProcessEvents_single_replay (r : tRun W) (fuel : nat) :
  is_u16 (mQCount (activeEvtQueue (inst r))) -> (2 <= fuel)%nat ->
  exists b r',
    _SmEngine_body tbl r = Some (b, r') /\
    _SmEngine_loop tbl fuel r = Some r' /\
    SmProcessEvents tbl fuel r =
      Some (xlog LOG_DEBUG
              (MsgEngineExit 0 (mQCount (deferredEvtQueue (inst r')))) r') /\
    mQCount (activeEvtQueue (inst r')) = 0 /\
    _SmProcessActiveEvents tbl r' = Some (false, r') /\
    replay_gate false r' = false /\
    _SmEngine_body tbl r' = Some (false, r').
Proof.
  intros Hc Hfuel.
  destruct (SmEngine_body_returns r Hc) as (b & r' & Hbody & Hz).
  pose proof (SmEngine_body_idle r' Hz) as Hidle.
  assert (Hloop : _SmEngine_loop tbl fuel r = Some r').
  { destruct fuel as [|[|n]]; [lia|lia|].
    cbn [_SmEngine_loop]. rewrite Hbody. destruct b; [|reflexivity].
    rewrite Hidle. reflexivity. }
  exists b, r'. split; [exact Hbody|]. split; [exact Hloop|].
  split; [unfold SmProcessEvents, _SmEngine; rewrite Hloop, Hz; reflexivity|].
  split; [exact Hz|]. split; [apply SmProcessActiveEvents_empty; exact Hz|].
  split; [reflexivity|exact Hidle].
Qed.

End EngineLoop.

Lemma wf_count (q : tSmQueueEvt) :
  queue_wf q -> mQCount q = Z.of_nat (length (q_contents q)).
Proof. intros ((? & _) & _). rewrite contents_length. lia. Qed.

Section Views.

Context {W : Type}.
Variable tbl : tStateRef -> tStateInfo W.

Lemma view_counts (r : tRun W) st na nd al dl :
  run_view r st na nd al dl ->
  mQCount (activeEvtQueue (inst r)) = Z.of_nat (length al) /\
  mQCount (deferredEvtQueue (inst r)) = Z.of_nat (length dl).
Proof.
  intros (_ & _ & Hwa & _ & Hal & Hwd & _ & Hdl).
  rewrite (wf_count _ Hwa), (wf_count _ Hwd), Hal, Hdl. auto.
Qed.

Lemma view_xlog (r : tRun W) st na nd al dl lvl m :
  run_view r st na nd al dl -> run_view (xlog lvl m r) st na nd al dl.
Proof. intros H; exact H. Qed.

Lemma view_init (r : tRun W) (st : tStateRef) :
  0 < mQSize (activeEvtQueue (inst r)) < 65536 ->
  Z.of_nat (length (mpQData (activeEvtQueue (inst r)))) = mQSize (activeEvtQueue (inst r)) ->
  0 < mQSize (deferredEvtQueue (inst r)) < 65536 ->
  Z.of_nat (length (mpQData (deferredEvtQueue (inst r)))) = mQSize (deferredEvtQueue (inst r)) ->
  run_view (SmInit r st) st (mQSize (activeEvtQueue (inst r)))
           (mQSize (deferredEvtQueue (inst r))) [] [].
Proof.
  intros Ha Hal Hd Hdl. unfold run_view. cbn.
  destruct (reset_wf _ Ha Hal), (reset_wf _ Hd Hdl). auto 10.
Qed.

Lemma view_enqueue (r : tRun W) st na nd al dl id d :
  run_view r st na nd al dl -> Z.of_nat (length al) < na ->
  run_view (SmEnqueueEvent r id d) st na nd (al ++ [mkEvent id d]) dl.
Proof.
  intros (Hst & Hinit & Hwa & Hna & Hal & Hwd & Hnd & Hdl) Hroom.
  unfold SmEnqueueEvent. rewrite Hinit. cbn.
  destruct (enqueue_wf _ id d Hwa) as (Hwf & Hc & _).
  { rewrite (wf_count _ Hwa), Hal, Hna. exact Hroom. }
  unfold run_view; cbn. rewrite enqueue_size, Hc, Hal. auto 10.
Qed.

(** Taking the oldest event off the active queue. *)
Lemma view_active_step (r : tRun W) st na nd ev al dl :
  run_view r st na nd (ev :: al) dl ->
  exists r1 c1,
    run_view r1 st na nd al dl /\ world r1 = world r /\
    forall n c,
      _SmProcessActiveEvents_loop tbl (S n) c r =
        if fst (_SmProcessEvent tbl r1 ev) then
          _SmProcessActiveEvents_loop tbl n (c + 1)
            (xlog LOG_DEBUG (MsgConsumed (mID ev) c1) (snd (_SmProcessEvent tbl r1 ev)))
        else
          _SmProcessActiveEvents_loop tbl n c
            (_SmDeferEvent tbl (snd (_SmProcessEvent tbl r1 ev)) ev).
Proof.
  intros (Hst & Hinit & Hwa & Hna & Hal & Hwd & Hnd & Hdl).
  destruct (dequeue_wf _ Hwa) as (ev0 & q' & Hdq & Hwf' & Hcons & _).
  { rewrite (wf_count _ Hwa), Hal. cbn [length]. lia. }
  rewrite Hal in Hcons. injection Hcons as <- Hq'.
  eexists _, _. split; [|split; [|intros n c; apply (active_loop_step tbl n c r ev q' Hdq)]].
  - unfold run_view; cbn. rewrite (dequeue_size _ _ _ Hdq). auto 10.
  - reflexivity.
Qed.

Lemma view_active_done (r : tRun W) st na nd dl n c :
  run_view r st na nd [] dl -> _SmProcessActiveEvents_loop tbl (S n) c r = Some (c, r).
Proof.
  intros V. apply active_loop_empty. now destruct (view_counts _ _ _ _ _ _ V).
Qed.

(** Taking the oldest event off the deferred queue. *)
Lemma view_deferred_step (r : tRun W) st na nd ev al dl :
  run_view r st na nd al (ev :: dl) ->
  exists r1,
    run_view r1 st na nd al dl /\ world r1 = world r /\
    forall n M c idx,
      _SmProcessDeferredEvents_loop tbl (S n) M c idx r =
        if fst (_SmProcessEvent tbl r1 ev) then
          (if idx + 1 <? M then
             _SmProcessDeferredEvents_loop tbl n M (c + 1) (idx + 1)
               (snd (_SmProcessEvent tbl r1 ev))
           else Some (c + 1, idx + 1, snd (_SmProcessEvent tbl r1 ev)))
        else
          (if idx + 1 <? M then
             _SmProcessDeferredEvents_loop tbl n M c (idx + 1)
               (_SmDeferEvent tbl (snd (_SmProcessEvent tbl r1 ev)) ev)
           else Some (c, idx + 1, _SmDeferEvent tbl (snd (_SmProcessEvent tbl r1 ev)) ev)).
Proof.
  intros (Hst & Hinit & Hwa & Hna & Hal & Hwd & Hnd & Hdl).
  destruct (dequeue_wf _ Hwd) as (ev0 & q' & Hdq & Hwf' & Hcons & _).
  { rewrite (wf_count _ Hwd), Hdl. cbn [length]. lia. }
  rewrite Hdl in Hcons. injection Hcons as <- Hq'.
  exists (xlog LOG_DEBUG (MsgDqDefEvent (mID ev) (mQCount q'))
            (with_inst r (set_deferredEvtQueue (inst r) q'))).
  split; [|split].
  - unfold run_view; cbn. rewrite (dequeue_size _ _ _ Hdq). auto 10.
  - reflexivity.
  - intros n M c idx.
    rewrite (deferred_loop_step tbl n M c idx r ev q' Hdq). unfold deferred_iter. cbn zeta.
    destruct (fst (_SmProcessEvent tbl _ ev)); reflexivity.
Qed.

(** The transition protocol through a view. *)
Lemma view_process_no_match (r : tRun W) st na nd al dl ev :
  run_view r st na nd al dl ->
  Forall (fun e => gID e <> mID ev) (mpNextStates (tbl st)) ->
  _SmProcessEvent tbl r ev = (false, r).
Proof.
  intros (Hst & _) Hall. unfold _SmProcessEvent. rewrite Hst.
  apply SmProcessEvent_scan_no_match. exact Hall.
Qed.

Lemma view_process_first_match (r : tRun W) st na nd al dl ev pre post T :
  run_view r st na nd al dl ->
  mpNextStates (tbl st) = pre ++ mkGuard (mID ev) T :: post ->
  Forall (fun e => gID e <> mID ev) pre ->
  (T <> st -> snd (mEntry (tbl T) ev ACT_GUARD (world r)) = true) ->
  exists r', _SmProcessEvent tbl r ev = (true, r') /\ run_view r' T na nd al dl.
Proof.
  intros (Hst & Hinit & Hwa & Hna & Hal & Hwd & Hnd & Hdl) Hedges Hpre Hguard.
  pose proof (SmProcessEvent_scan_no_match tbl pre ev r Hpre) as Hscan.
  destruct (Z.eq_dec T st) as [->|Hne].
  - rewrite (SmProcessEvent_self_loop tbl pre post ev r r); try assumption.
    + eexists. split; [reflexivity|]. rewrite invoke_eq. unfold run_view; cbn. auto 10.
    + rewrite Hst. exact Hedges.
  - destruct (SmProcessEvent_first_accept tbl pre post T ev r r)
      as (r' & Hrun & Hi & _); try assumption.
    + rewrite Hst. exact Hedges.
    + congruence.
    + auto.
    + exists r'. split; [exact Hrun|]. unfold run_view. rewrite Hi. cbn. auto 10.
Qed.

Lemma view_defer (r : tRun W) st na nd al dl ev :
  run_view r st na nd al dl ->
  In (mID ev) (mpDeferEvtIDs (tbl st)) ->
  Z.of_nat (length dl) < nd ->
  run_view (_SmDeferEvent tbl r ev) st na nd al (dl ++ [ev]).
Proof.
  intros (Hst & Hinit & Hwa & Hna & Hal & Hwd & Hnd & Hdl) Hin Hroom.
  rewrite SmDeferEvent_deferrable by (rewrite Hst; exact Hin).
  destruct (enqueue_wf _ (mID ev) (mData ev) Hwd) as (Hwf & Hc & _).
  { rewrite (wf_count _ Hwd), Hdl, Hnd. exact Hroom. }
  unfold run_view; cbn. rewrite enqueue_size, Hc, event_eta, Hdl. auto 10.
Qed.

(** C2. State A has no edge for evtZ and lets it be deferred; its first
    edge for evtW leads to B, whose guard accepts; the first edge of B
    for evtZ leads to D, whose guard accepts.  With room for two events
    in the active queue and one in the deferred queue, after [SmInit] in
    A, the enqueue of evtZ and then of evtW, one call of
    [SmProcessEvents] returns with the instance in D and both queues
    empty. *)
Theorem SmProcessEvents_deferred_cascade
    (A B D : tStateRef) (evtZ evtW : tStEventID) (dZ dW : tStEventData)
    (preA postA preB postB : list tStateGuard) (r : tRun W) (fuel : nat) :
  2 <= mQSize (activeEvtQueue (inst r)) < 65536 ->
  Z.of_nat (length (mpQData (activeEvtQueue (inst r)))) = mQSize (activeEvtQueue (inst r)) ->
  1 <= mQSize (deferredEvtQueue (inst r)) < 65536 ->
  Z.of_nat (length (mpQData (deferredEvtQueue (inst r)))) = mQSize (deferredEvtQueue (inst r)) ->
  Forall (fun e => gID e <> evtZ) (mpNextStates (tbl A)) ->
  In evtZ (mpDeferEvtIDs (tbl A)) ->
  mpNextStates (tbl A) = preA ++ mkGuard evtW B :: postA ->
  Forall (fun e => gID e <> evtW) preA ->
  A <> B ->
  (forall ev w, snd (mEntry (tbl B) ev ACT_GUARD w) = true) ->
  mpNextStates (tbl B) = preB ++ mkGuard evtZ D :: postB ->
  Forall (fun e => gID e <> evtZ) preB ->
  (forall ev w, snd (mEntry (tbl D) ev ACT_GUARD w) = true) ->
  (2 <= fuel)%nat ->
  exists r',
    SmProcessEvents tbl fuel
      (SmEnqueueEvent (SmEnqueueEvent (SmInit r A) evtZ dZ) evtW dW) = Some r' /\
    pCurrState (inst r') = D /\
    mQCount (activeEvtQueue (inst r')) = 0 /\
    mQCount (deferredEvtQueue (inst r')) = 0.
Proof.
  intros Hsa Hla Hsd Hld HnoZ HdefZ HedgesA HpreA HAB HgB HedgesB HpreB HgD Hfuel.
  set (na := mQSize (activeEvtQueue (inst r))) in *.
  set (nd := mQSize (deferredEvtQueue (inst r))) in *.
  set (eZ := mkEvent evtZ dZ). set (eW := mkEvent evtW dW).
  (* the three calls that set the scene *)
  pose proof (view_init r A ltac:(lia) Hla ltac:(lia) Hld) as V0. fold na nd in V0.
  pose proof (view_enqueue _ _ _ _ _ _ evtZ dZ V0 ltac:(cbn [length]; lia)) as V1.
  pose proof (view_enqueue _ _ _ _ _ _ evtW dW V1 ltac:(cbn [length app]; lia)) as V2.
  cbn [app] in V2. fold eZ eW in V2.
  set (r2 := SmEnqueueEvent (SmEnqueueEvent (SmInit r A) evtZ dZ) evtW dW) in *.
  clearbody r2. clear V0 V1.
  (* active pass: evtZ matches no edge of A and is deferred *)
  destruct (view_active_step r2 A na nd eZ [eW] [] V2) as (a1 & k1 & Va1 & _ & Hstep1).
  pose proof (view_process_no_match a1 A na nd _ _ eZ Va1 HnoZ) as Hp1.
  pose proof (view_defer a1 A na nd _ _ eZ Va1 HdefZ ltac:(cbn [length]; lia)) as Va2.
  cbn [app] in Va2.
  (* active pass: evtW moves the instance to B *)
  destruct (view_active_step _ A na nd eW [] [eZ] Va2) as (a3 & k3 & Va3 & _ & Hstep3).
  destruct (view_process_first_match a3 A na nd _ _ eW preA postA B Va3 HedgesA HpreA)
    as (a4 & Hp4 & Va4); [intros _; apply HgB|].
  pose proof (view_xlog a4 B na nd _ _ LOG_DEBUG (MsgConsumed (mID eW) k3) Va4) as Va5.
  set (a5 := xlog LOG_DEBUG (MsgConsumed (mID eW) k3) a4) in *.
  assert (Hactive : _SmProcessActiveEvents tbl r2 = Some (true, a5)).
  { unfold _SmProcessActiveEvents.
    destruct (view_counts _ _ _ _ _ _ V2) as (Hc2 & _). rewrite Hc2.
    cbn [length]. rewrite Nat2Z.id.
    rewrite Hstep1, Hp1. cbn [fst snd].
    rewrite Hstep3, Hp4. cbn [fst snd]. fold a5.
    rewrite (view_active_done a5 B na nd [eZ] 0 (0 + 1) Va5). reflexivity. }
  (* deferred replay: evtZ moves the instance from B to D *)
  destruct (view_deferred_step a5 B na nd eZ [] [] Va5) as (d1 & Vd1 & _ & Hdstep).
  destruct (view_process_first_match d1 B na nd _ _ eZ preB postB D Vd1 HedgesB HpreB)
    as (d2 & Hp5 & Vd2); [intros _; apply HgD|].
  destruct (view_counts _ _ _ _ _ _ Va5) as (_ & Hcd5).
  assert (Hreplay : _SmProcessDeferredEvents tbl a5 = Some (true, d2)).
  { unfold _SmProcessDeferredEvents. rewrite Hcd5. cbn [length].
    change (Z.to_nat (Z.of_nat 1)) with 1%nat.
    rewrite Hdstep, Hp5. cbn [fst snd]. reflexivity. }
  destruct (view_counts _ _ _ _ _ _ Vd2) as (Hca & Hcd). cbn [length] in Hca, Hcd.
  assert (Hbody : _SmEngine_body tbl r2 = Some (true, d2)).
  { unfold _SmEngine_body, replay_gate. rewrite Hactive, Hcd5. cbn [length].
    cbn [andb negb Z.eqb Z.of_nat Pos.of_succ_nat]. exact Hreplay. }
  destruct Vd2 as (HD & _).
  exists (xlog LOG_DEBUG (MsgEngineExit (mQCount (activeEvtQueue (inst d2)))
                           (mQCount (deferredEvtQueue (inst d2)))) d2).
  split; [|cbn; auto].
  unfold SmProcessEvents, _SmEngine.
  destruct fuel as [|[|n]]; [lia|lia|].
  cbn [_SmEngine_loop]. rewrite Hbody, (SmEngine_body_idle tbl d2 Hca). reflexivity.
Qed.

End Views.

(* ===================================================================== *)
(** ** The properties on the example configurations                       *)
(* ===================================================================== *)

(** C1, as stated, fails.  In the call on [Demo.cascade_start] the deferred
    replay consumes evtZ (B to D) and leaves evtY on the deferred queue;
    the loop runs the cycle again, but its active pass consumes nothing, so
    the replay is not entered and the call returns what the first replay
    left: state D with evtY still deferred, only evtY and evtZ ever taken
    off the deferred queue.  Another replay would have consumed evtY and
    moved the instance to E. *)
Lemma SmProcessEvents_no_second_replay :
  exists r1 r2 r3 : tRun unit,
    _SmProcessActiveEvents Demo.cascade_tbl Demo.cascade_start = Some (true, r1) /\
    replay_gate true r1 = true /\
    _SmProcessDeferredEvents Demo.cascade_tbl r1 = Some (true, r2) /\
    pCurrState (inst r2) = Demo.stD /\
    mQCount (deferredEvtQueue (inst r2)) = 1 /\
    q_contents (deferredEvtQueue (inst r2)) = [mkEvent Demo.evtY 100] /\
    _SmProcessActiveEvents Demo.cascade_tbl r2 = Some (false, r2) /\
    replay_gate false r2 = false /\
    (forall fuel : nat, (2 <= fuel)%nat ->
       SmProcessEvents Demo.cascade_tbl fuel Demo.cascade_start =
         Some (xlog LOG_DEBUG (MsgEngineExit 0 1) r2)) /\
    dq_def_ids (logged r2) = [Demo.evtY; Demo.evtZ] /\
    _SmProcessDeferredEvents Demo.cascade_tbl r2 = Some (true, r3) /\
    pCurrState (inst r3) = Demo.stE.
Proof.
  eexists _, _, _.
  split; [vm_compute; reflexivity|].
  split; [reflexivity|].
  split; [vm_compute; reflexivity|].
  split; [reflexivity|]. split; [reflexivity|]. split; [reflexivity|].
  split; [reflexivity|]. split; [reflexivity|].
  split; [intros [|[|n]] Hfuel; [lia|lia|reflexivity]|].
  split; [reflexivity|].
  split; [vm_compute; reflexivity|reflexivity].
Qed.

Lemma SmProcessEvents_single_replay_witness :
  is_u16 (mQCount (activeEvtQueue (inst Demo.cascade_start))) /\
  exists (b : bool) (r' : tRun unit),
    _SmEngine_body Demo.cascade_tbl Demo.cascade_start = Some (b, r') /\
    _SmEngine_loop Demo.cascade_tbl 2 Demo.cascade_start = Some r' /\
    SmProcessEvents Demo.cascade_tbl 2 Demo.cascade_start =
      Some (xlog LOG_DEBUG
              (MsgEngineExit 0 (mQCount (deferredEvtQueue (inst r')))) r') /\
    mQCount (activeEvtQueue (inst r')) = 0 /\
    _SmProcessActiveEvents Demo.cascade_tbl r' = Some (false, r') /\
    replay_gate false r' = false /\
    _SmEngine_body Demo.cascade_tbl r' = Some (false, r').
Proof.
  assert (H : is_u16 (mQCount (activeEvtQueue (inst Demo.cascade_start)))).
  { by_evaluation. }
  split; [exact H|].
  apply (SmProcessEvents_single_replay Demo.cascade_tbl Demo.cascade_start 2 H).
  lia.
Defined.

Lemma SmProcessEvents_deferred_cascade_witness :
  exists r' : tRun unit,
    SmProcessEvents Demo.cascade_tbl 2
      (SmEnqueueEvent (SmEnqueueEvent (SmInit (Demo.fresh 4 4) Demo.stA) Demo.evtZ 7)
         Demo.evtW 8) = Some r' /\
    pCurrState (inst r') = Demo.stD /\
    mQCount (activeEvtQueue (inst r')) = 0 /\
    mQCount (deferredEvtQueue (inst r')) = 0.
Proof.
  apply (SmProcessEvents_deferred_cascade Demo.cascade_tbl
           Demo.stA Demo.stB Demo.stD Demo.evtZ Demo.evtW 7 8 [] [] [] []).
  - by_evaluation.
  - reflexivity.
  - by_evaluation.
  - reflexivity.
  - cbn. repeat constructor. discriminate.
  - cbn. auto.
  - reflexivity.
  - constructor.
  - discriminate.
  - reflexivity.
  - reflexivity.
  - constructor.
  - reflexivity.
  - lia.
Defined.

Lemma SmProcessEvent_first_accepting_edge_wins_witness :
  let ev := mkEvent Demo.evtX 7 in
  (exists (r' : tRun unit) (gs : list tCall),
     _SmProcessEvent Demo.choice_tbl (Demo.run_in Demo.stA) ev = (true, r') /\
     pCurrState (inst r') = Demo.stC /\
     Forall (fun c => action c = ACT_GUARD /\ event c = ev) gs /\
     calls r' = calls (Demo.run_in Demo.stA) ++
                gs ++ [mkCall Demo.stC ACT_GUARD ev; mkCall Demo.stA ACT_EXIT ev;
                       mkCall Demo.stC ACT_ENTER ev]) /\
  (exists (r' : tRun unit) (delta : list tCall),
     _SmProcessEvent Demo.choice_tbl (Demo.run_in Demo.stA) ev = (true, r') /\
     pCurrState (inst r') = Demo.stC /\ pCurrState (inst r') <> Demo.stB /\
     calls r' = calls (Demo.run_in Demo.stA) ++ delta /\
     delta = [mkCall Demo.stB ACT_GUARD ev; mkCall Demo.stC ACT_GUARD ev;
              mkCall Demo.stA ACT_EXIT ev; mkCall Demo.stC ACT_ENTER ev] /\
     count_calls Demo.stA ACT_EXIT delta = 1%nat /\
     count_calls Demo.stC ACT_ENTER delta = 1%nat /\
     count_action ACT_EXIT delta = 1%nat /\
     count_action ACT_ENTER delta = 1%nat).
Proof.
  intros ev. split.
  - apply (proj1 (SmProcessEvent_first_accepting_edge_wins Demo.choice_tbl)
             [mkGuard Demo.evtX Demo.stB] [] Demo.stC ev (Demo.run_in Demo.stA)
             (snd (_SmProcessEvent_scan Demo.choice_tbl [mkGuard Demo.evtX Demo.stB] ev
                     (Demo.run_in Demo.stA)))).
    + reflexivity.
    + reflexivity.
    + discriminate.
    + reflexivity.
  - apply (proj2 (SmProcessEvent_first_accepting_edge_wins Demo.choice_tbl)
             Demo.stA Demo.stB Demo.stC ev (Demo.run_in Demo.stA) tt tt).
    + reflexivity.
    + reflexivity.
    + discriminate.
    + discriminate.
    + discriminate.
    + reflexivity.
    + reflexivity.
Defined.

Lemma SmProcessDeferredEvents_bounded_witness :
  let r := Demo.cascade_after_active in
  pCurrState (inst r) = Demo.stB /\
  q_contents (deferredEvtQueue (inst r)) =
    [mkEvent Demo.evtY 100; mkEvent Demo.evtZ 101] /\
  exists (c idx : Z) (r' : tRun unit) (ids : list tStEventID),
    _SmProcessDeferredEvents_loop Demo.cascade_tbl 3 2 0 0 r = Some (c, idx, r') /\
    _SmProcessDeferredEvents Demo.cascade_tbl r = Some (negb (c =? 0), r') /\
    0 <= idx <= 2 /\ 0 <= c <= idx /\
    dq_def_ids (logged r') = dq_def_ids (logged r) ++ ids /\
    idx = 2 /\
    ids = [Demo.evtY; Demo.evtZ] /\
    queue_wf (deferredEvtQueue (inst r')) /\
    sublist (q_contents (deferredEvtQueue (inst r')))
            [mkEvent Demo.evtY 100; mkEvent Demo.evtZ 101] /\
    mQCount (deferredEvtQueue (inst r')) + c <= 2.
Proof.
  intros r. split; [reflexivity|]. split; [reflexivity|].
  destruct (SmProcessDeferredEvents_bounded Demo.cascade_tbl r)
    as (c & idx & r' & ids & Hloop & Hrun & Hidx & Hc & Hlog & _ & Hwf).
  - by_evaluation.
  - exists c, idx, r', ids.
    split; [exact Hloop|]. split; [exact Hrun|]. split; [exact Hidx|].
    split; [exact Hc|]. split; [exact Hlog|].
    apply Hwf. by_evaluation.
Defined.

Lemma SmProcessEvent_self_loop_internal_witness :
  let ev := mkEvent Demo.evtY 7 in
  let r := Demo.run_in Demo.stA in
  exists (r' : tRun unit) (gs : list tCall),
    _SmProcessEvent Demo.loop_tbl r ev = (true, r') /\
    r' = snd (invoke Demo.loop_tbl Demo.stA ev ACT_INTERNAL
               (xlog LOG_DEBUG (MsgInternal Demo.stA Demo.evtY 7)
                  (snd (_SmProcessEvent_scan Demo.loop_tbl
                          [mkGuard Demo.evtX Demo.stC; mkGuard Demo.evtY Demo.stB] ev r)))) /\
    inst r' = inst r /\
    pCurrState (inst r') = Demo.stA /\
    calls r' = calls r ++ gs ++ [mkCall Demo.stA ACT_INTERNAL ev] /\
    count_calls Demo.stA ACT_INTERNAL (gs ++ [mkCall Demo.stA ACT_INTERNAL ev]) = 1%nat /\
    count_action ACT_INTERNAL (gs ++ [mkCall Demo.stA ACT_INTERNAL ev]) = 1%nat /\
    count_action ACT_EXIT (gs ++ [mkCall Demo.stA ACT_INTERNAL ev]) = 0%nat /\
    count_action ACT_ENTER (gs ++ [mkCall Demo.stA ACT_INTERNAL ev]) = 0%nat.
Proof.
  intros ev r.
  apply (SmProcessEvent_self_loop_internal Demo.loop_tbl
           [mkGuard Demo.evtX Demo.stC; mkGuard Demo.evtY Demo.stB]
           [mkGuard Demo.evtY Demo.stC] ev r).
  - reflexivity.
  - reflexivity.
Defined.

(** C7, as stated, fails where it says that the overflow is signalled.  The
    same event is offered to a full active queue and to one with a free
    slot: the first call drops it, the second stores it, and both calls
    report the same single line. *)
Lemma enqueue_full_no_signal :
  let r_full := Demo.run_with_active Demo.full_queue in
  let r_room := Demo.run_with_active Demo.roomy_queue in
  _SmQFull (activeEvtQueue (inst r_full)) = true /\
  _SmQFull (activeEvtQueue (inst r_room)) = false /\
  q_contents (activeEvtQueue (inst (SmEnqueueEvent r_full Demo.evtY 3))) =
    [mkEvent Demo.evtW 1; mkEvent Demo.evtX 2] /\
  q_contents (activeEvtQueue (inst (SmEnqueueEvent r_room Demo.evtY 3))) =
    [mkEvent Demo.evtW 1; mkEvent Demo.evtY 3] /\
  enqueue_report r_full Demo.evtY 3 = [(LOG_DEBUG, MsgEnqueue Demo.evtY 2)] /\
  enqueue_report r_room Demo.evtY 3 = [(LOG_DEBUG, MsgEnqueue Demo.evtY 2)] /\
  ~ overflow_signalled r_full r_room Demo.evtY 3.
Proof.
  intros r_full r_room. repeat (split; [reflexivity|]).
  intros H. apply H. reflexivity.
Qed.

Lemma enqueue_full_silent_noop_witness :
  mQCount Demo.full_queue = mQSize Demo.full_queue /\
  _SmEnqueueEvent Demo.full_queue Demo.evtY 3 = Demo.full_queue /\
  mQCount (_SmEnqueueEvent Demo.full_queue Demo.evtY 3) = 2 /\
  q_contents (_SmEnqueueEvent Demo.full_queue Demo.evtY 3) =
    [mkEvent Demo.evtW 1; mkEvent Demo.evtX 2] /\
  logged (SmEnqueueEvent (Demo.run_with_active Demo.full_queue) Demo.evtY 3) =
    [(LOG_DEBUG, MsgEnqueue Demo.evtY 2)].
Proof.
  assert (H : mQCount Demo.full_queue = mQSize Demo.full_queue) by reflexivity.
  destruct (proj1 enqueue_full_silent_noop Demo.full_queue Demo.evtY 3 H)
    as (H1 & H2 & H3 & _).
  destruct (proj2 enqueue_full_silent_noop unit (Demo.run_with_active Demo.full_queue)
              Demo.evtY 3 eq_refl H) as (_ & _ & _ & H4).
  split; [exact H|]. split; [exact H1|]. split; [exact H2|].
  split; [rewrite H3; reflexivity|exact H4].
Defined.

Lemma SmDeferEvent_defers_or_drops_witness :
  let r := Demo.run_in Demo.stA in
  q_contents (deferredEvtQueue (inst (_SmDeferEvent Demo.cascade_tbl r (mkEvent Demo.evtZ 5)))) =
    [mkEvent Demo.evtZ 5] /\
  inst (_SmDeferEvent Demo.cascade_tbl r (mkEvent Demo.evtX 6)) = inst r.
Proof.
  intros r. split.
  - destruct (SmDeferEvent_defers_or_drops Demo.cascade_tbl r (mkEvent Demo.evtZ 5))
      as (Hdefer & _).
    destruct Hdefer as (_ & Happend & _).
    + cbn. auto.
    + rewrite Happend; [reflexivity| |].
      * by_evaluation.
      * by_evaluation.
  - destruct (SmDeferEvent_defers_or_drops Demo.cascade_tbl r (mkEvent Demo.evtX 6))
      as (_ & Hdrop & _).
    apply Hdrop. cbn. intros [H|[H|[]]]; discriminate.
Defined.

Lemma SmEnqueueEvent_needs_init_witness :
  let r := Demo.fresh 4 4 in
  bInitFinished (inst r) = false /\
  inst (SmEnqueueEvent r Demo.evtX 7) = inst r /\
  q_contents (activeEvtQueue (inst (SmEnqueueEvent (SmInit r Demo.stA) Demo.evtX 7))) =
    [mkEvent Demo.evtX 7].
Proof.
  intros r. split; [reflexivity|]. split.
  - apply (proj1 (@SmEnqueueEvent_needs_init unit) r Demo.evtX 7). reflexivity.
  - apply (proj2 (proj2 (proj2 (@SmEnqueueEvent_needs_init unit))) r Demo.stA Demo.evtX 7).
    + by_evaluation.
    + reflexivity.
Defined.

Lemma SmProcessEvent_unconsumed_frame_witness :
  let ev := mkEvent Demo.evtX 7 in
  let r := Demo.run_in Demo.stC in
  let r' := snd (_SmProcessEvent Demo.choice_tbl r ev) in
  _SmProcessEvent Demo.choice_tbl r ev = (false, r') /\
  inst r' = inst r /\
  calls r' = [mkCall Demo.stB ACT_GUARD ev].
Proof.
  intros ev r r'.
  assert (H : _SmProcessEvent Demo.choice_tbl r ev = (false, r')) by reflexivity.
  split; [exact H|].
  destruct (SmProcessEvent_unconsumed_frame Demo.choice_tbl r r' ev H) as (Hinst & _).
  split; [exact Hinst|reflexivity].
Defined.

(* ===================================================================== *)
(** ** Beyond the claims: the public operations                           *)
(* ===================================================================== *)

Lemma wf_length_le (q : tSmQueueEvt) :
  queue_wf q -> Z.of_nat (length (q_contents q)) <= mQSize q.
Proof. intros Hwf. rewrite <- (wf_count _ Hwf). destruct Hwf as ((? & _) & _). lia. Qed.

Section PublicOperations.

Context {W : Type}.
Variable tbl : tStateRef -> tStateInfo W.

Lemma view_enqueue_full (r : tRun W) st na nd al dl id d :
run_view r st na nd al dl -> Z.of_nat (length al) = na ->
inst (SmEnqueueEvent r id d) = inst r.
Proof.
intros (Hst & Hinit & Hwa & Hna & Hal & _) Hfull.
unfold SmEnqueueEvent. rewrite Hinit. cbn.
rewrite enqueue_when_full; [apply instance_eta|].
rewrite (wf_count _ Hwa), Hal, Hna. exact Hfull.
Qed.

Lemma SmEnqueueEvent_outside (r : tRun W) id d :
world (SmEnqueueEvent r id d) = world r /\ calls (SmEnqueueEvent r id d) = calls r.
Proof. unfold SmEnqueueEvent. destruct (negb _); auto. Qed.

(** X1. Events offered to an initialized instance beyond the room of its
  active queue are lost, the earlier ones are kept: after any list of
  events has been enqueued, the active queue holds the first [capacity]
  events of what it held followed by the list, in order; the current
  state, the deferred queue and the application are untouched and no
  entry point is run. *)
Theorem enqueue_all_keeps_first (l : list tStateEvent) :
forall (r : tRun W) st na nd al dl,
run_view r st na nd al dl ->
run_view (enqueue_all r l) st na nd (take (Z.to_nat na) (al ++ l)) dl /\
world (enqueue_all r l) = world r /\
calls (enqueue_all r l) = calls r.
Proof.
induction l as [|ev l IH]; intros r st na nd al dl V.
- cbn. rewrite app_nil_r.
  assert (Hle : Z.of_nat (length al) <= na).
  { destruct V as (_ & _ & Hwa & Hna & Hal & _). rewrite <- Hal, <- Hna.
    apply wf_length_le. exact Hwa. }
  rewrite take_ge by lia. auto.
- cbn [enqueue_all fold_left]. fold (enqueue_all (SmEnqueueEvent r (mID ev) (mData ev)) l).
  destruct (SmEnqueueEvent_outside r (mID ev) (mData ev)) as (Hw & Hc).
  assert (Hle : Z.of_nat (length al) <= na).
  { destruct V as (_ & _ & Hwa & Hna & Hal & _). rewrite <- Hal, <- Hna.
    apply wf_length_le. exact Hwa. }
  destruct (Z.eq_dec (Z.of_nat (length al)) na) as [Hfull|Hroom].
  + assert (V' : run_view (SmEnqueueEvent r (mID ev) (mData ev)) st na nd al dl).
    { unfold run_view. rewrite (view_enqueue_full r st na nd al dl _ _ V Hfull). exact V. }
    destruct (IH _ _ _ _ _ _ V') as (V2 & Hw2 & Hc2).
    replace (take (Z.to_nat na) (al ++ ev :: l)) with (take (Z.to_nat na) (al ++ l)).
    * split; [exact V2|]. split; congruence.
    * rewrite !take_app_le by lia. reflexivity.
  + pose proof (view_enqueue r st na nd al dl (mID ev) (mData ev) V ltac:(lia)) as V'.
    rewrite event_eta in V'.
    destruct (IH _ _ _ _ _ _ V') as (V2 & Hw2 & Hc2).
    rewrite <- app_assoc in V2. cbn [app] in V2.
    split; [exact V2|]. split; congruence.
Qed.

(** X2. [SmInThisState] answers TRUE for one address only, the one that
  [SmInit] or [SmSetThisState] installed last; [SmSetThisState] changes
  nothing but the current state - it runs no entry point, logs nothing,
  leaves both queues alone and does not initialize the instance, so an
  enqueue on a never-initialized instance is still dropped after it. *)
Theorem SmSetThisState_forces_state (r : tRun W) (s t : tStateRef) :
(SmInThisState (SmSetThisState r s) t = true <-> t = s) /\
(SmInThisState (SmInit r s) t = true <-> t = s) /\
inst (SmSetThisState r s) = set_pCurrState (inst r) s /\
world (SmSetThisState r s) = world r /\
calls (SmSetThisState r s) = calls r /\
logged (SmSetThisState r s) = logged r /\
(bInitFinished (inst r) = false ->
 forall id d, inst (SmEnqueueEvent (SmSetThisState r s) id d) = inst (SmSetThisState r s)).
Proof.
split; [|split].
- unfold SmInThisState. cbn. rewrite Z.eqb_eq. split; congruence.
- unfold SmInThisState. cbn. rewrite Z.eqb_eq. split; congruence.
- repeat (split; [reflexivity|]). intros Hinit id d.
  unfold SmEnqueueEvent. cbn. rewrite Hinit. reflexivity.
Qed.

End PublicOperations.

(* ===================================================================== *)
(** ** Beyond the claims: the transition protocol                         *)
(* ===================================================================== *)

Lemma guard_eta (e : tStateGuard) : mkGuard (gID e) (mStInfo e) = e.
Proof. destruct e; reflexivity. Qed.

Lemma event_eqb_refl (ev : tStateEvent) : event_eqb ev ev = true.
Proof. unfold event_eqb. now rewrite !Z.eqb_refl. Qed.

Section ProtocolShape.

Context {W : Type}.
Variable tbl : tStateRef -> tStateInfo W.

(** The scan only ever adds to the history of invocations, and adds at
  least one as soon as an edge matches. *)
Lemma SmProcessEvent_scan_calls_grow (edges : list tStateGuard) (ev : tStateEvent) :
forall r : tRun W,
(length (calls r) <= length (calls (snd (_SmProcessEvent_scan tbl edges ev r))))%nat /\
(Exists (fun e => gID e = mID ev) edges ->
 (length (calls r) < length (calls (snd (_SmProcessEvent_scan tbl edges ev r))))%nat).
Proof.
induction edges as [|edge rest IH]; intros r; cbn.
- split; [lia|]. intros H. inversion H.
- destruct (Z.eqb_spec (gID edge) (mID ev)) as [Hid|Hid].
  + destruct (pCurrState (inst r) =? mStInfo edge).
    * rewrite invoke_eq. cbn. rewrite length_app. cbn. split; intros; lia.
    * rewrite invoke_eq.
      destruct (snd (mEntry (tbl (mStInfo edge)) ev ACT_GUARD (world r))).
      { rewrite !invoke_eq. cbn. rewrite !length_app. cbn. split; intros; lia. }
      match goal with |- context [_SmProcessEvent_scan tbl rest ev ?r0] =>
        destruct (IH r0) as (Hle & _); cbn in Hle; rewrite length_app in Hle; cbn in Hle
      end.
      split; intros; lia.
  + destruct (IH r) as (Hle & Hlt). split; [exact Hle|].
    intros H. apply Hlt. inversion H; subst; [contradiction|assumption].
Qed.

(** X3. An event is shown to application code exactly when some edge of
  the current state carries its id: with no such edge [_SmProcessEvent]
  returns FALSE and changes nothing at all - no entry point runs, nothing
  is logged; with one, at least one entry point is invoked. *)
Theorem SmProcessEvent_silent_iff_unmatched (r : tRun W) (ev : tStateEvent) :
(Forall (fun e => gID e <> mID ev) (mpNextStates (tbl (pCurrState (inst r)))) ->
 _SmProcessEvent tbl r ev = (false, r)) /\
(calls (snd (_SmProcessEvent tbl r ev)) = calls r ->
 Forall (fun e => gID e <> mID ev) (mpNextStates (tbl (pCurrState (inst r))))) /\
(Exists (fun e => gID e = mID ev) (mpNextStates (tbl (pCurrState (inst r)))) ->
 (length (calls r) < length (calls (snd (_SmProcessEvent tbl r ev))))%nat).
Proof.
unfold _SmProcessEvent.
destruct (SmProcessEvent_scan_calls_grow
            (mpNextStates (tbl (pCurrState (inst r)))) ev r) as (_ & Hlt).
split; [apply SmProcessEvent_scan_no_match|]. split; [|exact Hlt].
intros Hsame. apply Forall_forall. intros e He Hid.
assert (Hex : Exists (fun e => gID e = mID ev) (mpNextStates (tbl (pCurrState (inst r))))).
{ apply Exists_exists. exists e. split; assumption. }
apply Hlt in Hex. rewrite Hsame in Hex. lia.
Qed.

(** The shape of a scan that consumed the event, for a scan started in the
  state at [cur]. *)
Lemma SmProcessEvent_scan_consumed (edges : list tStateGuard) (ev : tStateEvent) :
forall (r r' : tRun W),
_SmProcessEvent_scan tbl edges ev r = (true, r') ->
exists gs,
  Forall (fun c => action c = ACT_GUARD /\ event c = ev /\
                   callee c <> pCurrState (inst r)) gs /\
  ((inst r' = inst r /\
    In (mkGuard (mID ev) (pCurrState (inst r))) edges /\
    calls r' = calls r ++ gs ++ [mkCall (pCurrState (inst r)) ACT_INTERNAL ev]) \/
   (exists T, T <> pCurrState (inst r) /\
      In (mkGuard (mID ev) T) edges /\
      inst r' = set_pCurrState (inst r) T /\
      calls r' = calls r ++ gs ++ [mkCall T ACT_GUARD ev;
                                   mkCall (pCurrState (inst r)) ACT_EXIT ev;
                                   mkCall T ACT_ENTER ev])).
Proof.
induction edges as [|edge rest IH]; intros r r' H; cbn in H; [discriminate|].
destruct (Z.eqb_spec (gID edge) (mID ev)) as [Hid|Hid].
- destruct (Z.eqb_spec (pCurrState (inst r)) (mStInfo edge)) as [Hself|Hself].
  + rewrite invoke_eq in H. injection H as <-. exists []. split; [constructor|].
    left. cbn. split; [reflexivity|]. split; [|rewrite Hself; reflexivity].
    left. rewrite <- Hid, Hself. symmetry. apply guard_eta.
  + rewrite invoke_eq in H.
    destruct (snd (mEntry (tbl (mStInfo edge)) ev ACT_GUARD (world r))).
    * rewrite !invoke_eq in H. injection H as <-. exists []. split; [constructor|].
      right. exists (mStInfo edge). cbn.
      split; [congruence|]. split; [left; rewrite <- Hid; symmetry; apply guard_eta|].
      split; [reflexivity|]. rewrite <- !app_assoc. reflexivity.
    * apply IH in H. cbn in H. destruct H as (gs & Hgs & Hcase).
      exists (mkCall (mStInfo edge) ACT_GUARD ev :: gs).
      split; [constructor; [cbn; split; [reflexivity|split; [reflexivity|congruence]]|exact Hgs]|].
      destruct Hcase as [(Hi & Hin & Hc)|(T & HT & Hin & Hi & Hc)].
      { left. split; [exact Hi|]. split; [right; exact Hin|].
        rewrite Hc, <- app_assoc. reflexivity. }
      { right. exists T. split; [exact HT|]. split; [right; exact Hin|].
        split; [exact Hi|]. rewrite Hc, <- app_assoc. reflexivity. }
- apply IH in H. destruct H as (gs & Hgs & Hcase). exists gs. split; [exact Hgs|].
  destruct Hcase as [(Hi & Hin & Hc)|(T & HT & Hin & Hi & Hc)].
  + left. split; [exact Hi|]. split; [right; exact Hin|exact Hc].
  + right. exists T. split; [exact HT|]. split; [right; exact Hin|]. split; assumption.
Qed.

(** X4. A consumed event is consumed in one of two ways only.  Either the
  current state has a self-loop edge for it and its entry point was
  invoked with Internal, the instance being unchanged; or the current
  state has an edge for it to another state T, whose guard was asked
  last, and then the old state's Exit and T's Enter were invoked, in
  that order and for that event, the current state becoming T and
  nothing else in the instance changing.  Before that, only guards of
  other states were asked.  So one event never causes two transitions,
  and no Enter is invoked without the Exit before it. *)
Theorem SmProcessEvent_consumed_cases (r r' : tRun W) (ev : tStateEvent) :
_SmProcessEvent tbl r ev = (true, r') ->
exists gs,
  Forall (fun c => action c = ACT_GUARD /\ event c = ev /\
                   callee c <> pCurrState (inst r)) gs /\
  ((inst r' = inst r /\
    In (mkGuard (mID ev) (pCurrState (inst r)))
       (mpNextStates (tbl (pCurrState (inst r)))) /\
    calls r' = calls r ++ gs ++ [mkCall (pCurrState (inst r)) ACT_INTERNAL ev]) \/
   (exists T, T <> pCurrState (inst r) /\
      In (mkGuard (mID ev) T) (mpNextStates (tbl (pCurrState (inst r)))) /\
      inst r' = set_pCurrState (inst r) T /\
      calls r' = calls r ++ gs ++ [mkCall T ACT_GUARD ev;
                                   mkCall (pCurrState (inst r)) ACT_EXIT ev;
                                   mkCall T ACT_ENTER ev])).
Proof. apply SmProcessEvent_scan_consumed. Qed.

End ProtocolShape.

(* ===================================================================== *)
(** ** Beyond the claims: what every step of the engine keeps             *)
(* ===================================================================== *)

(** A relation that holds across every primitive step of the engine holds
    across its loops. *)
Section StepInvariant.

Context {W : Type}.
Variable tbl : tStateRef -> tStateInfo W.
Variable R : tRun W -> tRun W -> Prop.

Hypothesis R_refl : forall r, R r r.
Hypothesis R_trans : forall a b c, R a b -> R b c -> R a c.
Hypothesis R_dequeue_active : forall r, R r (snd (_SmDequeueActiveEvent r)).
Hypothesis R_dequeue_deferred : forall r, R r (snd (_SmDequeueDeferredEvent r)).
Hypothesis R_process : forall r ev, R r (snd (_SmProcessEvent tbl r ev)).
Hypothesis R_defer : forall r ev, R r (_SmDeferEvent tbl r ev).
Hypothesis R_xlog : forall lvl m r, R r (xlog lvl m r).

Lemma active_loop_keeps (n : nat) :
forall c r c' r',
_SmProcessActiveEvents_loop tbl n c r = Some (c', r') -> R r r'.
Proof.
induction n as [|n IH]; intros c r c' r' H; cbn in H; [discriminate|].
pose proof (R_dequeue_active r) as Hdq.
destruct (_SmDequeueActiveEvent r) as [[ev|] r1]; cbn [snd] in Hdq.
- pose proof (R_process r1 ev) as Hp.
  destruct (_SmProcessEvent tbl r1 ev) as [b r2]; cbn [snd] in Hp.
  destruct b; apply IH in H.
  + eapply R_trans; [exact Hdq|]. eapply R_trans; [exact Hp|].
    eapply R_trans; [apply R_xlog|exact H].
  + eapply R_trans; [exact Hdq|]. eapply R_trans; [exact Hp|].
    eapply R_trans; [apply R_defer|exact H].
- injection H as _ <-. exact Hdq.
Qed.

Lemma deferred_loop_keeps (n : nat) :
forall M c idx r c' idx' r',
_SmProcessDeferredEvents_loop tbl n M c idx r = Some (c', idx', r') -> R r r'.
Proof.
induction n as [|n IH]; intros M c idx r c' idx' r' H; cbn in H; [discriminate|].
pose proof (R_dequeue_deferred r) as Hdq.
destruct (_SmDequeueDeferredEvent r) as [[ev|] r1]; cbn [snd] in Hdq.
- pose proof (R_process r1 ev) as Hp.
  destruct (_SmProcessEvent tbl r1 ev) as [b r2]; cbn [snd] in Hp.
  assert (H12 : R r (if b then r2 else _SmDeferEvent tbl r2 ev)).
  { eapply R_trans; [exact Hdq|]. eapply R_trans; [exact Hp|].
    destruct b; [apply R_refl|apply R_defer]. }
  destruct b; destruct (idx + 1 <? M).
  + apply IH in H. eapply R_trans; eassumption.
  + injection H as _ _ <-. exact H12.
  + apply IH in H. eapply R_trans; eassumption.
  + injection H as _ _ <-. exact H12.
- injection H as _ _ <-. exact Hdq.
Qed.

Lemma SmEngine_body_keeps (r r' : tRun W) (b : bool) :
_SmEngine_body tbl r = Some (b, r') -> R r r'.
Proof.
unfold _SmEngine_body, _SmProcessActiveEvents, _SmProcessDeferredEvents.
destruct (_SmProcessActiveEvents_loop tbl _ 0 r) as [[c1 r1]|] eqn:Ha; [|discriminate].
apply active_loop_keeps in Ha.
destruct (replay_gate _ r1).
- destruct (_SmProcessDeferredEvents_loop tbl _ _ 0 0 r1) as [[[c2 i2] r2]|] eqn:Hd;
    [|discriminate].
  apply deferred_loop_keeps in Hd. intros [= _ <-]. eapply R_trans; eassumption.
- intros [= _ <-]. exact Ha.
Qed.

Lemma SmEngine_loop_keeps (fuel : nat) :
forall r r', _SmEngine_loop tbl fuel r = Some r' -> R r r'.
Proof.
induction fuel as [|fuel IH]; intros r r' H; cbn in H; [discriminate|].
destruct (_SmEngine_body tbl r) as [[b r1]|] eqn:Hb; [|discriminate].
apply SmEngine_body_keeps in Hb. destruct b.
- apply IH in H. eapply R_trans; eassumption.
- injection H as <-. exact Hb.
Qed.

Lemma SmProcessEvents_keeps (fuel : nat) (r r' : tRun W) :
SmProcessEvents tbl fuel r = Some r' -> R r r'.
Proof.
unfold SmProcessEvents, _SmEngine.
destruct (_SmEngine_loop tbl fuel r) as [r1|] eqn:Hl; [|discriminate].
apply SmEngine_loop_keeps in Hl. intros [= <-].
eapply R_trans; [exact Hl|apply R_xlog].
Qed.

End StepInvariant.

(** The engine returns, whatever the fuel from 2 on. *)
Lemma SmProcessEvents_returns {W : Type} (tbl : tStateRef -> tStateInfo W)
    (r : tRun W) (fuel : nat) :
  is_u16 (mQCount (activeEvtQueue (inst r))) -> (2 <= fuel)%nat ->
  exists r', SmProcessEvents tbl fuel r = Some r' /\
    mQCount (activeEvtQueue (inst r')) = 0.
Proof.
  intros Hc Hfuel.
  destruct (SmEngine_body_returns tbl r Hc) as (b & r1 & Hbody & Hz).
  pose proof (SmEngine_body_idle tbl r1 Hz) as Hidle.
  unfold SmProcessEvents, _SmEngine.
  destruct fuel as [|[|n]]; [lia|lia|].
  cbn [_SmEngine_loop]. rewrite Hbody. destruct b.
  - rewrite Hidle. eexists. split; [reflexivity|exact Hz].
  - eexists. split; [reflexivity|exact Hz].
Qed.

(** *** The queues stay well-formed *)

Lemma enqueue_keeps_wf (q : tSmQueueEvt) id d :
  queue_wf q -> queue_wf (_SmEnqueueEvent q id d).
Proof.
  intros Hwf. destruct (Z.eq_dec (mQCount q) (mQSize q)) as [Hfull|Hroom].
  - rewrite enqueue_when_full by exact Hfull. exact Hwf.
  - apply enqueue_wf; [exact Hwf|]. destruct Hwf as ((? & _) & _). lia.
Qed.

Lemma dequeue_keeps_wf (q q' : tSmQueueEvt) ev :
  queue_wf q -> _SmDequeueEvent q = Some (ev, q') -> queue_wf q'.
Proof.
  intros Hwf Hdq.
  destruct (dequeue_wf q Hwf) as (ev0 & q0 & Hdq0 & Hwf0 & _).
  - assert (Hu : is_u16 (mQCount q)).
    { destruct Hwf as ((? & _) & ? & _). unfold is_u16. lia. }
    apply (dequeue_count _ _ _ Hu Hdq).
  - congruence.
Qed.

Section Kept.

Context {W : Type}.
Variable tbl : tStateRef -> tStateInfo W.

Lemma keeps_queues_refl (r : tRun W) : keeps_queues r r.
Proof. intros Ha Hd. auto. Qed.

Lemma keeps_queues_trans (a b c : tRun W) :
keeps_queues a b -> keeps_queues b c -> keeps_queues a c.
Proof.
intros Hab Hbc Ha Hd. destruct (Hab Ha Hd) as (Ha1 & Hd1 & Hs1 & Ht1 & Hi1).
destruct (Hbc Ha1 Hd1) as (Ha2 & Hd2 & Hs2 & Ht2 & Hi2).
split; [exact Ha2|]. split; [exact Hd2|]. split; [congruence|]. split; congruence.
Qed.

Lemma keeps_queues_dequeue_active (r : tRun W) :
keeps_queues r (snd (_SmDequeueActiveEvent r)).
Proof.
unfold _SmDequeueActiveEvent.
destruct (_SmDequeueEvent (activeEvtQueue (inst r))) as [[ev q']|] eqn:Hdq;
  [|apply keeps_queues_refl].
intros Ha Hd. cbn. rewrite (dequeue_size _ _ _ Hdq).
split; [exact (dequeue_keeps_wf _ _ _ Ha Hdq)|]. auto.
Qed.

Lemma keeps_queues_dequeue_deferred (r : tRun W) :
keeps_queues r (snd (_SmDequeueDeferredEvent r)).
Proof.
unfold _SmDequeueDeferredEvent.
destruct (_SmDequeueEvent (deferredEvtQueue (inst r))) as [[ev q']|] eqn:Hdq;
  [|apply keeps_queues_refl].
intros Ha Hd. cbn. rewrite (dequeue_size _ _ _ Hdq).
split; [exact Ha|]. split; [exact (dequeue_keeps_wf _ _ _ Hd Hdq)|]. auto.
Qed.

Lemma keeps_queues_process (r : tRun W) (ev : tStateEvent) :
keeps_queues r (snd (_SmProcessEvent tbl r ev)).
Proof.
destruct (_SmProcessEvent tbl r ev) as [b r'] eqn:Hp.
apply SmProcessEvent_frame in Hp as [Ha Hd Hi _]. cbn [snd].
intros Hwa Hwd. rewrite Ha, Hd, Hi. auto.
Qed.

Lemma keeps_queues_defer (r : tRun W) (ev : tStateEvent) :
keeps_queues r (_SmDeferEvent tbl r ev).
Proof.
destruct (SmDeferEvent_frame tbl r ev) as (_ & Ha & Hi & _ & _ & _ & Hd).
intros Hwa Hwd. rewrite Ha, Hi.
destruct Hd as [Hd|Hd]; rewrite Hd.
- auto.
- rewrite enqueue_size. split; [exact Hwa|].
  split; [apply enqueue_keeps_wf; exact Hwd|]. auto.
Qed.

Lemma keeps_queues_xlog lvl m (r : tRun W) : keeps_queues r (xlog lvl m r).
Proof. intros Ha Hd. cbn. auto. Qed.

(** X5. [SmProcessEvents] never damages the queues: called on an instance
  whose two queues are well-formed, it returns, both queues are still
  well-formed, with the capacities and the initialized flag they had,
  and the active queue is empty. *)
Theorem SmProcessEvents_keeps_queues (r : tRun W) (fuel : nat) :
queue_wf (activeEvtQueue (inst r)) -> queue_wf (deferredEvtQueue (inst r)) ->
(2 <= fuel)%nat ->
exists r', SmProcessEvents tbl fuel r = Some r' /\
  queue_wf (activeEvtQueue (inst r')) /\
  queue_wf (deferredEvtQueue (inst r')) /\
  mQSize (activeEvtQueue (inst r')) = mQSize (activeEvtQueue (inst r)) /\
  mQSize (deferredEvtQueue (inst r')) = mQSize (deferredEvtQueue (inst r)) /\
  bInitFinished (inst r') = bInitFinished (inst r) /\
  q_contents (activeEvtQueue (inst r')) = [].
Proof.
intros Hwa Hwd Hfuel.
assert (Hu : is_u16 (mQCount (activeEvtQueue (inst r)))).
{ destruct Hwa as ((? & _) & ? & _). unfold is_u16. lia. }
destruct (SmProcessEvents_returns tbl r fuel Hu Hfuel) as (r' & Hrun & Hz).
exists r'. split; [exact Hrun|].
destruct (SmProcessEvents_keeps tbl keeps_queues keeps_queues_refl keeps_queues_trans
            keeps_queues_dequeue_active keeps_queues_dequeue_deferred
            keeps_queues_process keeps_queues_defer keeps_queues_xlog
            fuel r r' Hrun Hwa Hwd) as (Ha' & Hd' & Hs & Ht & Hi).
repeat (split; [assumption|]).
apply length_zero_iff_nil. rewrite contents_length, Hz. reflexivity.
Qed.

End Kept.

(** *** The history of invocations is a walk through the states *)

Lemma action_eqb_eq (a b : eStateAction) : action_eqb a b = true -> a = b.
Proof. destruct a, b; cbn; congruence. Qed.

Lemma trace_state_guard_cons (st : tStateRef) (g : tCall) (d : list tCall) (s : tStateRef) :
  action g = ACT_GUARD -> callee g <> st ->
  trace_state st d = Some s -> trace_state st (g :: d) = Some s.
Proof.
  intros Ha Hne H. cbn [trace_state]. rewrite Ha.
  destruct (Z.eqb_spec (callee g) st); [contradiction|].
  destruct d as [|x [|y l3]]; try exact H.
  destruct (is_exit_of st (event g) x) eqn:Hx; [|exact H].
  unfold is_exit_of in Hx. apply andb_prop in Hx as (Hx & _).
  apply andb_prop in Hx as (Hx & _). apply action_eqb_eq in Hx.
  cbn [trace_state] in H. rewrite Hx in H. discriminate.
Qed.

Lemma trace_state_app_bounded (n : nat) :
  forall (d1 d2 : list tCall) (st s1 s2 : tStateRef),
  (length d1 <= n)%nat ->
  trace_state st d1 = Some s1 -> trace_state s1 d2 = Some s2 ->
  trace_state st (d1 ++ d2) = Some s2.
Proof.
  induction n as [|n IH]; intros d1 d2 st s1 s2 Hlen H1 H2.
  - destruct d1; [|cbn in Hlen; lia]. cbn in H1. injection H1 as <-. exact H2.
  - destruct d1 as [|c l1]; [cbn in H1; injection H1 as <-; exact H2|].
    cbn [length] in Hlen. cbn [trace_state] in H1.
    destruct (action c) eqn:Ha; try discriminate.
    + (* a guard *)
      destruct (Z.eqb_spec (callee c) st) as [|Hne]; [discriminate|].
      assert (Hrej : trace_state st l1 = Some s1 ->
                     trace_state st ((c :: l1) ++ d2) = Some s2).
      { intros Hl1. cbn [app]. apply trace_state_guard_cons; [exact Ha|exact Hne|].
        apply (IH l1 d2 st s1 s2); [lia|exact Hl1|exact H2]. }
      destruct l1 as [|x [|y l3]]; try (apply Hrej; exact H1).
      destruct (is_exit_of st (event c) x) eqn:Hx; [|apply Hrej; exact H1].
      destruct (is_enter_of (callee c) (event c) y) eqn:Hy; [|discriminate].
      cbn [app trace_state]. rewrite Ha.
      destruct (Z.eqb_spec (callee c) st); [contradiction|]. rewrite Hx, Hy.
      apply (IH l3 d2 (callee c) s1 s2); [cbn [length] in Hlen; lia|exact H1|exact H2].
    + (* an internal invocation *)
      cbn [app trace_state]. rewrite Ha.
      destruct (callee c =? st); [|discriminate].
      apply (IH l1 d2 st s1 s2); [lia|exact H1|exact H2].
Qed.

Lemma trace_state_app (d1 d2 : list tCall) (st s1 s2 : tStateRef) :
  trace_state st d1 = Some s1 -> trace_state s1 d2 = Some s2 ->
  trace_state st (d1 ++ d2) = Some s2.
Proof. apply (trace_state_app_bounded (length d1)). lia. Qed.

Section Walks.

Context {W : Type}.
Variable tbl : tStateRef -> tStateInfo W.

Lemma walks_refl (r : tRun W) : walks r r.
Proof. exists []. rewrite app_nil_r. auto. Qed.

Lemma walks_trans (a b c : tRun W) : walks a b -> walks b c -> walks a c.
Proof.
intros (d1 & Hc1 & Ht1) (d2 & Hc2 & Ht2). exists (d1 ++ d2).
split; [rewrite Hc2, Hc1, <- app_assoc; reflexivity|].
eapply trace_state_app; eassumption.
Qed.

(** A step that leaves the history and the current state alone. *)
Lemma walks_still (r r' : tRun W) :
calls r' = calls r -> pCurrState (inst r') = pCurrState (inst r) -> walks r r'.
Proof. intros Hc Hs. exists []. rewrite app_nil_r, Hs. auto. Qed.

Lemma walks_dequeue_active (r : tRun W) : walks r (snd (_SmDequeueActiveEvent r)).
Proof.
unfold _SmDequeueActiveEvent.
destruct (_SmDequeueEvent (activeEvtQueue (inst r))) as [[ev q']|];
  apply walks_still; reflexivity.
Qed.

Lemma walks_dequeue_deferred (r : tRun W) : walks r (snd (_SmDequeueDeferredEvent r)).
Proof.
unfold _SmDequeueDeferredEvent.
destruct (_SmDequeueEvent (deferredEvtQueue (inst r))) as [[ev q']|];
  apply walks_still; reflexivity.
Qed.

Lemma walks_defer (r : tRun W) (ev : tStateEvent) : walks r (_SmDeferEvent tbl r ev).
Proof.
destruct (SmDeferEvent_frame tbl r ev) as (Hs & _ & _ & _ & Hc & _).
apply walks_still; assumption.
Qed.

Lemma walks_xlog lvl m (r : tRun W) : walks r (xlog lvl m r).
Proof. apply walks_still; reflexivity. Qed.

Lemma walks_scan (edges : list tStateGuard) (ev : tStateEvent) :
forall r : tRun W, walks r (snd (_SmProcessEvent_scan tbl edges ev r)).
Proof.
induction edges as [|edge rest IH]; intros r; cbn; [apply walks_refl|].
destruct (gID edge =? mID ev); [|apply IH].
destruct (Z.eqb_spec (pCurrState (inst r)) (mStInfo edge)) as [Hself|Hself].
- rewrite invoke_eq. cbn. exists [mkCall (mStInfo edge) ACT_INTERNAL ev].
  split; [reflexivity|]. cbn. rewrite <- Hself, Z.eqb_refl. reflexivity.
- rewrite invoke_eq.
  destruct (snd (mEntry (tbl (mStInfo edge)) ev ACT_GUARD (world r))).
  + rewrite !invoke_eq. cbn.
    exists [mkCall (mStInfo edge) ACT_GUARD ev;
            mkCall (pCurrState (inst r)) ACT_EXIT ev;
            mkCall (mStInfo edge) ACT_ENTER ev].
    split; [rewrite <- !app_assoc; reflexivity|]. cbn.
    destruct (Z.eqb_spec (mStInfo edge) (pCurrState (inst r))); [congruence|].
    unfold is_exit_of, is_enter_of. cbn.
    rewrite !Z.eqb_refl, event_eqb_refl. reflexivity.
  + match goal with |- context [_SmProcessEvent_scan tbl rest ev ?r0] =>
      destruct (IH r0) as (d & Hc & Ht) end.
    cbn in Hc, Ht. exists (mkCall (mStInfo edge) ACT_GUARD ev :: d).
    split; [rewrite Hc, <- app_assoc; reflexivity|].
    apply trace_state_guard_cons; [reflexivity|cbn; congruence|exact Ht].
Qed.

Lemma walks_process (r : tRun W) (ev : tStateEvent) :
walks r (snd (_SmProcessEvent tbl r ev)).
Proof. apply walks_scan. Qed.

(** X6. Over a whole call of [SmProcessEvents], the entry points invoked
  form a walk through the states from the state the call started in to
  the state it ends in: an Internal invocation is always of the state
  current at that moment; a guard is always of another state; every
  Exit is of the current state, comes right after the accepting guard of
  the target and is followed at once by the Enter of that target, for
  the same event; no Enter or Exit occurs otherwise. *)
Theorem SmProcessEvents_walks (r : tRun W) (fuel : nat) :
is_u16 (mQCount (activeEvtQueue (inst r))) -> (2 <= fuel)%nat ->
exists r' d,
  SmProcessEvents tbl fuel r = Some r' /\
  calls r' = calls r ++ d /\
  trace_state (pCurrState (inst r)) d = Some (pCurrState (inst r')).
Proof.
intros Hu Hfuel.
destruct (SmProcessEvents_returns tbl r fuel Hu Hfuel) as (r' & Hrun & _).
destruct (SmProcessEvents_keeps tbl walks walks_refl walks_trans
            walks_dequeue_active walks_dequeue_deferred
            walks_process walks_defer walks_xlog fuel r r' Hrun) as (d & Hc & Ht).
exists r', d. auto.
Qed.

(** A call on an empty active queue. *)
Lemma SmProcessEvents_on_empty (fuel : nat) (r : tRun W) :
mQCount (activeEvtQueue (inst r)) = 0 -> (1 <= fuel)%nat ->
SmProcessEvents tbl fuel r =
  Some (xlog LOG_DEBUG
          (MsgEngineExit 0 (mQCount (deferredEvtQueue (inst r)))) r).
Proof.
intros Hz Hfuel. unfold SmProcessEvents, _SmEngine.
destruct fuel as [|n]; [lia|]. cbn [_SmEngine_loop].
rewrite (SmEngine_body_idle tbl r Hz), Hz. reflexivity.
Qed.

(** X7. A call of [SmProcessEvents] that finds the active queue empty does
  nothing but log its exit line: no entry point is run and the instance
  is unchanged, so the events waiting on the deferred queue are not
  tried, however many there are and whatever the current state would do
  with them.  A second call right after any call is such a call. *)
Theorem SmProcessEvents_idle (r : tRun W) :
(forall fuel : nat,
   mQCount (activeEvtQueue (inst r)) = 0 -> (1 <= fuel)%nat ->
   SmProcessEvents tbl fuel r =
     Some (xlog LOG_DEBUG
             (MsgEngineExit 0 (mQCount (deferredEvtQueue (inst r)))) r)) /\
(forall (fuel fuel' : nat) (r' : tRun W),
   is_u16 (mQCount (activeEvtQueue (inst r))) -> (2 <= fuel)%nat -> (1 <= fuel')%nat ->
   SmProcessEvents tbl fuel r = Some r' ->
   exists r'', SmProcessEvents tbl fuel' r' = Some r'' /\
     inst r'' = inst r' /\ calls r'' = calls r' /\ world r'' = world r').
Proof.
split; [intros fuel; apply SmProcessEvents_on_empty|].
intros fuel fuel' r' Hu Hfuel Hfuel' Hrun.
destruct (SmProcessEvents_returns tbl r fuel Hu Hfuel) as (r1 & Hrun1 & Hz).
rewrite Hrun in Hrun1. injection Hrun1 as <-.
eexists. split; [apply SmProcessEvents_on_empty; assumption|]. cbn. auto.
Qed.

(** X8. [SmInit] drops whatever was waiting: on any instance, initialized
  or not, whatever its queues held, both queues are empty after
  [SmInit] (a dequeue finds nothing), the capacities and the storage are
  kept, the state is the one given, and a call of [SmProcessEvents]
  right after it runs no entry point and stays in that state. *)
Theorem SmInit_drops_pending (r : tRun W) (st : tStateRef) :
_SmDequeueEvent (activeEvtQueue (inst (SmInit r st))) = None /\
_SmDequeueEvent (deferredEvtQueue (inst (SmInit r st))) = None /\
q_contents (activeEvtQueue (inst (SmInit r st))) = [] /\
q_contents (deferredEvtQueue (inst (SmInit r st))) = [] /\
mQSize (activeEvtQueue (inst (SmInit r st))) = mQSize (activeEvtQueue (inst r)) /\
mQSize (deferredEvtQueue (inst (SmInit r st))) = mQSize (deferredEvtQueue (inst r)) /\
mpQData (activeEvtQueue (inst (SmInit r st))) = mpQData (activeEvtQueue (inst r)) /\
mpQData (deferredEvtQueue (inst (SmInit r st))) = mpQData (deferredEvtQueue (inst r)) /\
world (SmInit r st) = world r /\ calls (SmInit r st) = calls r /\
forall fuel : nat, (1 <= fuel)%nat ->
  exists r', SmProcessEvents tbl fuel (SmInit r st) = Some r' /\
    inst r' = inst (SmInit r st) /\ pCurrState (inst r') = st /\
    calls r' = calls r /\ world r' = world r.
Proof.
repeat (split; [reflexivity|]).
intros fuel Hfuel. eexists. split.
- apply SmProcessEvents_on_empty; [reflexivity|exact Hfuel].
- cbn. auto.
Qed.

End Walks.

(* ===================================================================== *)
(** ** Beyond the claims: the two passes on the contents of the queues    *)
(* ===================================================================== *)

Lemma take_take_app {A : Type} (n : nat) (a b : list A) :
  take n (take n a ++ b) = take n (a ++ b).
Proof.
  destruct (le_lt_dec n (length a)) as [Hle|Hlt].
  - rewrite (take_app_le a b) by lia.
    rewrite take_app_le by (rewrite length_take; lia).
    rewrite take_take. f_equal. lia.
  - rewrite (take_ge a) by lia. reflexivity.
Qed.

Lemma sm_dequeue_ids_app (l1 l2 : list tLogLine) :
  sm_dequeue_ids (l1 ++ l2) = sm_dequeue_ids l1 ++ sm_dequeue_ids l2.
Proof. unfold sm_dequeue_ids. apply omap_app. Qed.

Section PassesOnViews.

Context {W : Type}.
Variable tbl : tStateRef -> tStateInfo W.

Lemma view_length_le (r : tRun W) st na nd al dl :
run_view r st na nd al dl ->
Z.of_nat (length al) <= na /\ Z.of_nat (length dl) <= nd.
Proof.
intros (_ & _ & Hwa & Hna & Hal & Hwd & Hnd & Hdl).
rewrite <- Hal, <- Hna, <- Hdl, <- Hnd. split; apply wf_length_le; assumption.
Qed.

Lemma view_dequeue_active (r : tRun W) st na nd ev al dl :
run_view r st na nd (ev :: al) dl ->
exists q', _SmDequeueEvent (activeEvtQueue (inst r)) = Some (ev, q') /\
  run_view (xlog LOG_DEBUG (MsgSmDequeue (mID ev) (mQCount q'))
              (with_inst r (set_activeEvtQueue (inst r) q'))) st na nd al dl.
Proof.
intros (Hst & Hinit & Hwa & Hna & Hal & Hwd & Hnd & Hdl).
destruct (dequeue_wf _ Hwa) as (ev0 & q' & Hdq & Hwf' & Hcons & _).
{ rewrite (wf_count _ Hwa), Hal. cbn [length]. lia. }
rewrite Hal in Hcons. injection Hcons as <- Hq'.
exists q'. split; [exact Hdq|].
unfold run_view; cbn. rewrite (dequeue_size _ _ _ Hdq). auto 10.
Qed.

Lemma view_dequeue_deferred (r : tRun W) st na nd ev al dl :
run_view r st na nd al (ev :: dl) ->
exists q', _SmDequeueEvent (deferredEvtQueue (inst r)) = Some (ev, q') /\
  run_view (xlog LOG_DEBUG (MsgDqDefEvent (mID ev) (mQCount q'))
              (with_inst r (set_deferredEvtQueue (inst r) q'))) st na nd al dl.
Proof.
intros (Hst & Hinit & Hwa & Hna & Hal & Hwd & Hnd & Hdl).
destruct (dequeue_wf _ Hwd) as (ev0 & q' & Hdq & Hwf' & Hcons & _).
{ rewrite (wf_count _ Hwd), Hdl. cbn [length]. lia. }
rewrite Hdl in Hcons. injection Hcons as <- Hq'.
exists q'. split; [exact Hdq|].
unfold run_view; cbn. rewrite (dequeue_size _ _ _ Hdq). auto 10.
Qed.

Lemma view_process_any (r : tRun W) st na nd al dl ev :
run_view r st na nd al dl ->
run_view (snd (_SmProcessEvent tbl r ev))
         (pCurrState (inst (snd (_SmProcessEvent tbl r ev)))) na nd al dl.
Proof.
intros (Hst & Hinit & Hwa & Hna & Hal & Hwd & Hnd & Hdl).
destruct (_SmProcessEvent tbl r ev) as [b r'] eqn:Hp. cbn [snd].
apply SmProcessEvent_frame in Hp as [Ha Hd Hi _].
unfold run_view. rewrite Ha, Hd, Hi. auto 10.
Qed.

(** Deferral through a view: the event joins the deferred events when the
  state lets it be deferred and there is room. *)
Lemma view_defer_any (r : tRun W) st na nd al dl ev :
run_view r st na nd al dl ->
run_view (_SmDeferEvent tbl r ev) st na nd al
  (take (Z.to_nat nd) (dl ++ if deferrable tbl st ev then [ev] else [])) /\
calls (_SmDeferEvent tbl r ev) = calls r /\
world (_SmDeferEvent tbl r ev) = world r.
Proof.
intros V. destruct (view_length_le _ _ _ _ _ _ V) as (_ & Hle).
destruct (SmDeferEvent_frame tbl r ev) as (_ & _ & _ & Hw & Hc & _).
split; [|auto].
pose proof V as (Hst & Hinit & Hwa & Hna & Hal & Hwd & Hnd & Hdl).
unfold deferrable. destruct (_SmDeferEvent_scan _ _) eqn:Hscan.
- apply SmDeferEvent_scan_In in Hscan.
  destruct (Z.eq_dec (Z.of_nat (length dl)) nd) as [Hfull|Hroom].
  + rewrite take_app_le by lia. rewrite take_ge by lia.
    rewrite SmDeferEvent_deferrable by (rewrite Hst; exact Hscan).
    unfold _SmEnqueueDeferredEvent. unfold run_view; cbn.
    rewrite enqueue_when_full by (rewrite (wf_count _ Hwd), Hdl, Hnd; exact Hfull).
    auto 10.
  + rewrite take_ge by (rewrite length_app; cbn [length]; lia).
    apply view_defer; [exact V|exact Hscan|lia].
- rewrite app_nil_r, take_ge by lia.
  rewrite SmDeferEvent_not_deferrable.
  + exact V.
  + rewrite Hst. intros Hin. apply SmDeferEvent_scan_In in Hin. congruence.
Qed.

(** The active loop on events that no edge of the current state matches. *)
Lemma active_loop_unmatched (al : list tStateEvent) :
forall (r : tRun W) st na nd dl (n : nat) (c : Z),
run_view r st na nd al dl ->
Forall (fun ev => Forall (fun e => gID e <> mID ev) (mpNextStates (tbl st))) al ->
(length al < n)%nat ->
exists r', _SmProcessActiveEvents_loop tbl n c r = Some (c, r') /\
  run_view r' st na nd []
    (take (Z.to_nat nd) (dl ++ List.filter (deferrable tbl st) al)) /\
  calls r' = calls r /\ world r' = world r.
Proof.
induction al as [|ev al IH]; intros r st na nd dl n c V Hun Hfuel.
- destruct n as [|n]; [cbn in Hfuel; lia|].
  rewrite (view_active_done tbl r st na nd dl n c V).
  destruct (view_length_le _ _ _ _ _ _ V) as (_ & Hle).
  cbn. rewrite app_nil_r, take_ge by lia. eauto.
- destruct n as [|n]; [cbn in Hfuel; lia|]. cbn [length] in Hfuel.
  pose proof (Forall_inv Hun) as Hev. pose proof (Forall_inv_tail Hun) as Hrest.
  destruct (view_dequeue_active r st na nd ev al dl V) as (q' & Hdq & V1).
  rewrite (active_loop_step tbl n c r ev q' Hdq). cbn zeta.
  rewrite (view_process_no_match tbl _ st na nd al dl ev V1 Hev). cbn [fst snd].
  destruct (view_defer_any _ st na nd al dl ev V1) as (V2 & Hc2 & Hw2).
  destruct (IH _ st na nd _ n c V2 Hrest ltac:(lia)) as (r' & Hrun & V' & Hc' & Hw').
  exists r'. split; [exact Hrun|]. split.
  + rewrite take_take_app in V'. cbn [List.filter].
    destruct (deferrable tbl st ev); [|rewrite app_nil_r in V'; exact V'].
    rewrite <- app_assoc in V'. exact V'.
  + split; [rewrite Hc', Hc2|rewrite Hw', Hw2]; reflexivity.
Qed.

(** X9. When no edge of the current state carries the id of any event
  waiting in the active queue, a call of [SmProcessEvents] runs no entry
  point and stays in its state: it empties the active queue, appends to
  the deferred queue, in order, the events the state lets be deferred -
  as far as the deferred queue has room - and drops the others; the
  events already deferred are not tried. *)
Theorem SmProcessEvents_all_unmatched (r : tRun W) st na nd al dl (fuel : nat) :
run_view r st na nd al dl ->
Forall (fun ev => Forall (fun e => gID e <> mID ev) (mpNextStates (tbl st))) al ->
(1 <= fuel)%nat ->
exists r', SmProcessEvents tbl fuel r = Some r' /\
  run_view r' st na nd []
    (take (Z.to_nat nd) (dl ++ List.filter (deferrable tbl st) al)) /\
  calls r' = calls r /\ world r' = world r.
Proof.
intros V Hun Hfuel.
destruct (view_counts _ _ _ _ _ _ V) as (Hca & _).
destruct (active_loop_unmatched al r st na nd dl (S (length al)) 0 V Hun ltac:(lia))
  as (r1 & Hrun & V1 & Hc1 & Hw1).
assert (Hact : _SmProcessActiveEvents tbl r = Some (false, r1)).
{ unfold _SmProcessActiveEvents. rewrite Hca, Nat2Z.id, Hrun. reflexivity. }
unfold SmProcessEvents, _SmEngine.
destruct fuel as [|n]; [lia|]. cbn [_SmEngine_loop].
unfold _SmEngine_body. rewrite Hact. cbn [replay_gate andb].
eexists. split; [reflexivity|]. split; [exact V1|]. cbn. auto.
Qed.

(** The deferred loop on events that no edge of the current state
  matches: [rem] is what is left of the snapshot, [red] what has been put
  back so far. *)
Lemma deferred_loop_unmatched (rem : list tStateEvent) :
forall (red : list tStateEvent) (r : tRun W) st na nd al (n : nat) (M c idx : Z),
run_view r st na nd al (rem ++ red) ->
Forall (fun ev => Forall (fun e => gID e <> mID ev) (mpNextStates (tbl st))) rem ->
rem <> [] -> idx + Z.of_nat (length rem) = M -> (length rem <= n)%nat ->
exists r', _SmProcessDeferredEvents_loop tbl n M c idx r = Some (c, M, r') /\
  run_view r' st na nd al (red ++ List.filter (deferrable tbl st) rem) /\
  calls r' = calls r /\ world r' = world r.
Proof.
induction rem as [|ev rem IH]; intros red r st na nd al n M c idx V Hun Hne HM Hfuel;
  [contradiction|].
destruct n as [|n]; [cbn in Hfuel; lia|]. cbn [length] in Hfuel, HM.
pose proof (Forall_inv Hun) as Hev. pose proof (Forall_inv_tail Hun) as Hrest.
destruct (view_length_le _ _ _ _ _ _ V) as (_ & Hle).
cbn [app length] in Hle.
destruct (view_dequeue_deferred r st na nd ev al (rem ++ red) V) as (q' & Hdq & V1).
rewrite (deferred_loop_step tbl n M c idx r ev q' Hdq). unfold deferred_iter. cbn zeta.
rewrite (view_process_no_match tbl _ st na nd al (rem ++ red) ev V1 Hev). cbn [fst snd].
destruct (view_defer_any _ st na nd al (rem ++ red) ev V1) as (V2 & Hc2 & Hw2).
rewrite take_ge in V2
  by (rewrite length_app; destruct (deferrable tbl st ev); cbn [length]; lia).
rewrite <- app_assoc in V2.
assert (Hshape : (red ++ (if deferrable tbl st ev then [ev] else [])) ++
                   List.filter (deferrable tbl st) rem =
                 red ++ List.filter (deferrable tbl st) (ev :: rem)).
{ cbn [List.filter]. rewrite <- app_assoc.
  destruct (deferrable tbl st ev); reflexivity. }
destruct rem as [|ev2 rem].
- destruct (Z.ltb_spec (idx + 1) M) as [|_]; [cbn [length] in HM; lia|].
  replace (idx + 1) with M by (cbn [length] in HM; lia).
  eexists. split; [reflexivity|]. split; [|split; [rewrite Hc2|rewrite Hw2]; reflexivity].
  rewrite <- Hshape. cbn [List.filter app]. rewrite app_nil_r. exact V2.
- destruct (Z.ltb_spec (idx + 1) M) as [_|Hlast]; [|cbn [length] in HM; lia].
  destruct (IH (red ++ (if deferrable tbl st ev then [ev] else [])) _ st na nd al n
               M c (idx + 1) V2 Hrest)
    as (r' & Hrun & V' & Hc' & Hw'); [discriminate|cbn [length] in *; lia|cbn [length] in *; lia|].
  exists r'. split; [exact Hrun|]. split; [rewrite <- Hshape; exact V'|].
  split; [rewrite Hc', Hc2|rewrite Hw', Hw2]; reflexivity.
Qed.

(** X10. A deferred replay in a state none of whose edges carries the id
  of a deferred event consumes nothing and runs no entry point: it
  returns FALSE in the same state, and the deferred queue then holds, in
  their order, exactly the events the state lets be deferred; an event
  that the state neither uses nor lets be deferred is discarded for
  good. *)
Theorem SmProcessDeferredEvents_all_unmatched (r : tRun W) st na nd al dl :
run_view r st na nd al dl ->
Forall (fun ev => Forall (fun e => gID e <> mID ev) (mpNextStates (tbl st))) dl ->
exists r', _SmProcessDeferredEvents tbl r = Some (false, r') /\
  run_view r' st na nd al (List.filter (deferrable tbl st) dl) /\
  calls r' = calls r /\ world r' = world r.
Proof.
intros V Hun. destruct (view_counts _ _ _ _ _ _ V) as (_ & Hcd).
unfold _SmProcessDeferredEvents. rewrite Hcd, Nat2Z.id.
destruct dl as [|ev dl].
- rewrite deferred_loop_empty by (rewrite Hcd; reflexivity).
  exists r. cbn. auto.
- destruct (deferred_loop_unmatched (ev :: dl) [] r st na nd al (S (length (ev :: dl)))
              (Z.of_nat (length (ev :: dl))) 0 0) as (r' & Hrun & V' & Hc & Hw).
  + rewrite app_nil_r. exact V.
  + exact Hun.
  + discriminate.
  + lia.
  + lia.
  + rewrite Hrun. exists r'. cbn [app] in V'. auto.
Qed.

End PassesOnViews.

Section ActivePass.

Context {W : Type}.
Variable tbl : tStateRef -> tStateInfo W.

Lemma SmProcessEvent_scan_dequeue_log (edges : list tStateGuard) (ev : tStateEvent) :
forall r : tRun W,
sm_dequeue_ids (logged (snd (_SmProcessEvent_scan tbl edges ev r))) =
  sm_dequeue_ids (logged r).
Proof.
induction edges as [|edge rest IH]; intros r; cbn; [reflexivity|].
destruct (gID edge =? mID ev); [|apply IH].
destruct (pCurrState (inst r) =? mStInfo edge).
- rewrite invoke_eq. cbn. rewrite sm_dequeue_ids_app, app_nil_r. reflexivity.
- rewrite invoke_eq.
  destruct (snd (mEntry (tbl (mStInfo edge)) ev ACT_GUARD (world r))).
  + rewrite !invoke_eq. cbn. rewrite !sm_dequeue_ids_app, !app_nil_r. reflexivity.
  + rewrite IH. cbn. rewrite sm_dequeue_ids_app, app_nil_r. reflexivity.
Qed.

Lemma SmDeferEvent_dequeue_log (r : tRun W) (ev : tStateEvent) :
sm_dequeue_ids (logged (_SmDeferEvent tbl r ev)) = sm_dequeue_ids (logged r).
Proof.
unfold _SmDeferEvent. destruct (_SmDeferEvent_scan _ _); cbn;
  rewrite ?sm_dequeue_ids_app, ?app_nil_r; reflexivity.
Qed.

(** The active loop takes the queued events off one by one, oldest first,
  and puts what it defers behind the events already deferred. *)
Lemma active_loop_takes_all (al : list tStateEvent) :
forall (r : tRun W) st na nd dl (n : nat) (c : Z),
run_view r st na nd al dl -> (length al < n)%nat ->
exists c' r' st' more,
  _SmProcessActiveEvents_loop tbl n c r = Some (c', r') /\
  run_view r' st' na nd [] (dl ++ more) /\
  sublist more al /\
  sm_dequeue_ids (logged r') = sm_dequeue_ids (logged r) ++ (mID <$> al) /\
  c <= c' /\ (c' - c) + Z.of_nat (length more) <= Z.of_nat (length al) /\
  (c' = c -> st' = st).
Proof.
induction al as [|ev al IH]; intros r st na nd dl n c V Hfuel.
- destruct n as [|n]; [cbn in Hfuel; lia|].
  rewrite (view_active_done tbl r st na nd dl n c V).
  exists c, r, st, []. rewrite !app_nil_r. cbn.
  split; [reflexivity|]. split; [exact V|]. split; [constructor|].
  split; [reflexivity|]. split; [lia|]. split; [lia|auto].
- destruct n as [|n]; [cbn in Hfuel; lia|]. cbn [length] in Hfuel.
  destruct (view_dequeue_active r st na nd ev al dl V) as (q' & Hdq & V1).
  rewrite (active_loop_step tbl n c r ev q' Hdq). cbn zeta.
  set (r1 := xlog LOG_DEBUG (MsgSmDequeue (mID ev) (mQCount q'))
               (with_inst r (set_activeEvtQueue (inst r) q'))) in *.
  assert (Hlog1 : sm_dequeue_ids (logged r1) = sm_dequeue_ids (logged r) ++ [mID ev]).
  { subst r1. cbn. rewrite sm_dequeue_ids_app. reflexivity. }
  pose proof (view_process_any tbl r1 st na nd al dl ev V1) as V2.
  pose proof (SmProcessEvent_scan_dequeue_log
                (mpNextStates (tbl (pCurrState (inst r1)))) ev r1) as Hlog2.
  fold (_SmProcessEvent tbl r1 ev) in Hlog2.
  destruct (_SmProcessEvent tbl r1 ev) as [b r2] eqn:Hp. cbn [fst snd] in *.
  destruct b.
  + destruct (IH (xlog LOG_DEBUG (MsgConsumed (mID ev) (mQCount q')) r2)
                 (pCurrState (inst r2)) na nd dl n (c + 1))
      as (c' & r' & st' & more & Hrun & V' & Hsub & Hlog & Hc & Hcnt & _);
      [exact V2|lia|].
    exists c', r', st', more. split; [exact Hrun|]. split; [exact V'|].
    split; [apply sublist_cons; exact Hsub|].
    split; [rewrite Hlog; cbn [logged xlog]; rewrite sm_dequeue_ids_app, app_nil_r,
              Hlog2, Hlog1, <- app_assoc; reflexivity|].
    cbn [length]. split; [lia|]. split; [lia|]. intros; lia.
  + apply SmProcessEvent_scan_unconsumed in Hp as (Hinst & _).
    assert (Hst2 : pCurrState (inst r2) = st).
    { rewrite Hinst. destruct V1 as (Hst & _). exact Hst. }
    rewrite Hst2 in V2.
    destruct (view_defer_any tbl r2 st na nd al dl ev V2) as (V3 & _ & _).
    destruct (view_length_le _ _ _ _ _ _ V2) as (_ & Hle).
    rewrite take_app, (take_ge dl) in V3 by lia.
    set (back := take (Z.to_nat nd - length dl)
                      (if deferrable tbl st ev then [ev] else [])) in *.
    assert (Hback : sublist back [ev] /\ (length back <= 1)%nat).
    { subst back. destruct (deferrable tbl st ev).
      - split; [apply sublist_take|]. rewrite length_take. cbn. lia.
      - rewrite take_nil. split; [apply sublist_nil_l|cbn; lia]. }
    destruct Hback as (Hbsub & Hblen).
    destruct (IH (_SmDeferEvent tbl r2 ev) st na nd (dl ++ back) n c)
      as (c' & r' & st' & more & Hrun & V' & Hsub & Hlog & Hc & Hcnt & Hsame);
      [exact V3|lia|].
    exists c', r', st', (back ++ more). split; [exact Hrun|].
    split; [rewrite app_assoc; exact V'|].
    split; [change (ev :: al) with ([ev] ++ al); apply sublist_app; assumption|].
    split; [rewrite Hlog, SmDeferEvent_dequeue_log, Hlog2, Hlog1, <- app_assoc;
            reflexivity|].
    rewrite length_app. cbn [length]. split; [lia|]. split; [lia|exact Hsame].
Qed.

(** X11. The active pass takes every event waiting in the active queue
  off it, each once and oldest first, and returns with that queue empty.
  It never removes an event from the deferred queue: what it defers (a
  subsequence of the events it took, in their order) is put behind the
  events already deferred.  When it returns FALSE the current state is
  the one it started in. *)
Theorem SmProcessActiveEvents_takes_all (r : tRun W) st na nd al dl :
run_view r st na nd al dl ->
exists b r' st' more,
  _SmProcessActiveEvents tbl r = Some (b, r') /\
  run_view r' st' na nd [] (dl ++ more) /\
  sublist more al /\
  sm_dequeue_ids (logged r') = sm_dequeue_ids (logged r) ++ (mID <$> al) /\
  (b = false -> st' = st).
Proof.
intros V. destruct (view_counts _ _ _ _ _ _ V) as (Hca & _).
destruct (active_loop_takes_all al r st na nd dl (S (length al)) 0 V ltac:(lia))
  as (c' & r' & st' & more & Hrun & V' & Hsub & Hlog & Hc & _ & Hsame).
unfold _SmProcessActiveEvents. rewrite Hca, Nat2Z.id, Hrun.
exists (negb (c' =? 0)), r', st', more.
split; [reflexivity|]. split; [exact V'|]. split; [exact Hsub|]. split; [exact Hlog|].
intros Hb. apply Hsame. destruct (Z.eqb_spec c' 0); [assumption|discriminate].
Qed.

End ActivePass.

(** X12. A queue without slots ignores every operation: whatever is
    enqueued is dropped, every dequeue finds nothing, and the queue -
    counters and storage - never changes. *)
Theorem queue_without_slots (q : tSmQueueEvt) (ops : list tQueueOp) :
  mQSize q = 0 -> mQCount q = 0 ->
  snd (run_ops ops q) = q /\
  Forall (fun o => o = None) (fst (run_ops ops q)).
Proof.
  intros Hsz Hcnt. induction ops as [|op ops [IHq IHo]]; [cbn; auto|].
  cbn [run_ops].
  assert (Hop : apply_op op q = (match op with OpDequeue => [None] | _ => [] end, q)).
  { destruct op as [id d|]; cbn.
    - rewrite enqueue_when_full by lia. reflexivity.
    - rewrite dequeue_when_empty by exact Hcnt. reflexivity. }
  rewrite Hop. destruct (run_ops ops q) as [out2 q2]; cbn [fst snd] in *.
  split; [exact IHq|]. apply Forall_app. split; [|exact IHo].
  destruct op; repeat constructor.
Qed.

(* ===================================================================== *)
(** ** The further properties on the example configurations               *)
(* ===================================================================== *)

Ltac view_by_evaluation := unfold run_view; by_evaluation.

Lemma enqueue_all_keeps_first_witness :
  let r := SmInit (Demo.fresh 4 4) Demo.stA in
  run_view (enqueue_all r Tour.five) Demo.stA 4 4
    [mkEvent 1 10; mkEvent 2 20; mkEvent 3 30; mkEvent 4 40] [] /\
  calls (enqueue_all r Tour.five) = [].
Proof.
  intros r.
  destruct (enqueue_all_keeps_first Tour.five r Demo.stA 4 4 [] []) as (V & _ & Hc).
  - view_by_evaluation.
  - split; [exact V|exact Hc].
Defined.

Lemma SmSetThisState_forces_state_witness :
  bInitFinished (inst Tour.stale) = false /\
  SmInThisState (SmSetThisState Tour.stale Demo.stD) Demo.stD = true /\
  SmInThisState (SmSetThisState Tour.stale Demo.stD) Demo.stB = false /\
  inst (SmEnqueueEvent (SmSetThisState Tour.stale Demo.stD) Demo.evtX 7) =
    inst (SmSetThisState Tour.stale Demo.stD).
Proof.
  destruct (SmSetThisState_forces_state Tour.stale Demo.stD Demo.stD)
    as (Hin & _ & _ & _ & _ & _ & Hdrop).
  split; [reflexivity|]. split; [apply Hin; reflexivity|]. split; [reflexivity|].
  apply Hdrop. reflexivity.
Defined.

Lemma SmProcessEvent_silent_iff_unmatched_witness :
  let r := Demo.run_in Demo.stA in
  _SmProcessEvent Demo.cascade_tbl r (mkEvent Demo.evtZ 5) = (false, r) /\
  (length (calls r) <
   length (calls (snd (_SmProcessEvent Demo.cascade_tbl r (mkEvent Demo.evtW 5%Z)))))%nat.
Proof.
  intros r.
  destruct (SmProcessEvent_silent_iff_unmatched Demo.cascade_tbl r (mkEvent Demo.evtZ 5))
    as (Hsilent & _).
  destruct (SmProcessEvent_silent_iff_unmatched Demo.cascade_tbl r (mkEvent Demo.evtW 5))
    as (_ & _ & Hshown).
  split.
  - apply Hsilent. cbn. repeat constructor. discriminate.
  - apply Hshown. cbn. constructor. reflexivity.
Defined.

Lemma SmProcessEvent_consumed_cases_witness :
  let ev := mkEvent Demo.evtX 7 in
  let r := Demo.run_in Demo.stA in
  exists gs : list tCall,
    Forall (fun c => action c = ACT_GUARD /\ event c = ev /\ callee c <> Demo.stA) gs /\
    ((inst (snd (_SmProcessEvent Demo.choice_tbl r ev)) = inst r /\
      In (mkGuard Demo.evtX Demo.stA) (mpNextStates (Demo.choice_tbl Demo.stA)) /\
      calls (snd (_SmProcessEvent Demo.choice_tbl r ev)) =
        calls r ++ gs ++ [mkCall Demo.stA ACT_INTERNAL ev]) \/
     (exists T, T <> Demo.stA /\
        In (mkGuard Demo.evtX T) (mpNextStates (Demo.choice_tbl Demo.stA)) /\
        inst (snd (_SmProcessEvent Demo.choice_tbl r ev)) = set_pCurrState (inst r) T /\
        calls (snd (_SmProcessEvent Demo.choice_tbl r ev)) =
          calls r ++ gs ++ [mkCall T ACT_GUARD ev; mkCall Demo.stA ACT_EXIT ev;
                            mkCall T ACT_ENTER ev])).
Proof.
  intros ev r.
  apply (SmProcessEvent_consumed_cases Demo.choice_tbl r
           (snd (_SmProcessEvent Demo.choice_tbl r ev)) ev).
  reflexivity.
Defined.

Lemma SmProcessEvents_keeps_queues_witness :
  exists r' : tRun unit,
    SmProcessEvents Demo.cascade_tbl 2 Demo.cascade_start = Some r' /\
    queue_wf (activeEvtQueue (inst r')) /\
    queue_wf (deferredEvtQueue (inst r')) /\
    mQSize (activeEvtQueue (inst r')) = 4 /\
    mQSize (deferredEvtQueue (inst r')) = 4 /\
    bInitFinished (inst r') = true /\
    q_contents (activeEvtQueue (inst r')) = [].
Proof.
  apply (SmProcessEvents_keeps_queues Demo.cascade_tbl Demo.cascade_start 2).
  - by_evaluation.
  - by_evaluation.
  - lia.
Defined.

Lemma SmProcessEvents_walks_witness :
  exists (r' : tRun unit) (d : list tCall),
    SmProcessEvents Demo.cascade_tbl 2 Demo.cascade_start = Some r' /\
    calls r' = calls Demo.cascade_start ++ d /\
    trace_state Demo.stA d = Some (pCurrState (inst r')).
Proof.
  apply (SmProcessEvents_walks Demo.cascade_tbl Demo.cascade_start 2).
  - by_evaluation.
  - lia.
Defined.

Lemma SmProcessEvents_idle_witness :
  q_contents (deferredEvtQueue (inst Tour.stranded)) =
    [mkEvent Demo.evtY 1; mkEvent Demo.evtZ 3] /\
  SmProcessEvents Demo.cascade_tbl 1 Tour.stranded =
    Some (xlog LOG_DEBUG (MsgEngineExit 0 2) Tour.stranded) /\
  exists r'' : tRun unit,
    SmProcessEvents Demo.cascade_tbl 1
      (xlog LOG_DEBUG (MsgEngineExit 0 2) Tour.stranded) = Some r'' /\
    inst r'' = inst (xlog LOG_DEBUG (MsgEngineExit 0 2) Tour.stranded) /\
    calls r'' = calls (xlog LOG_DEBUG (MsgEngineExit 0 2) Tour.stranded).
Proof.
  destruct (SmProcessEvents_idle Demo.cascade_tbl Tour.stranded) as (Hidle & Hagain).
  assert (Ha : mQCount (activeEvtQueue (inst Tour.stranded)) = 0)
    by (vm_compute; reflexivity).
  assert (Hd : mQCount (deferredEvtQueue (inst Tour.stranded)) = 2)
    by (vm_compute; reflexivity).
  assert (Hu : is_u16 (mQCount (activeEvtQueue (inst Tour.stranded))))
    by (rewrite Ha; unfold is_u16; lia).
  pose proof (Hidle 1%nat Ha ltac:(lia)) as H1. rewrite Hd in H1.
  pose proof (Hidle 2%nat Ha ltac:(lia)) as H2. rewrite Hd in H2.
  split; [vm_compute; reflexivity|]. split; [exact H1|].
  destruct (Hagain 2%nat 1%nat _ Hu ltac:(lia) ltac:(lia) H2) as (r'' & Hrun & Hinst & Hc & _).
  exists r''. split; [exact Hrun|]. split; [exact Hinst|exact Hc].
Defined.

Lemma SmInit_drops_pending_witness :
  q_contents (activeEvtQueue (inst Tour.stale)) = [mkEvent Demo.evtW 1] /\
  q_contents (deferredEvtQueue (inst Tour.stale)) =
    [mkEvent Demo.evtW 1; mkEvent Demo.evtX 2] /\
  q_contents (activeEvtQueue (inst (SmInit Tour.stale Demo.stA))) = [] /\
  exists r' : tRun unit,
    SmProcessEvents Demo.cascade_tbl 1 (SmInit Tour.stale Demo.stA) = Some r' /\
    inst r' = inst (SmInit Tour.stale Demo.stA) /\ pCurrState (inst r') = Demo.stA /\
    calls r' = [] /\ world r' = tt.
Proof.
  destruct (SmInit_drops_pending Demo.cascade_tbl Tour.stale Demo.stA)
    as (_ & _ & Hnil & _ & _ & _ & _ & _ & _ & _ & Hrun).
  split; [reflexivity|]. split; [reflexivity|]. split; [exact Hnil|].
  apply (Hrun 1%nat). lia.
Defined.

Lemma SmProcessEvents_all_unmatched_witness :
  exists r' : tRun unit,
    SmProcessEvents Demo.cascade_tbl 1 Tour.unmatched_start = Some r' /\
    run_view r' Demo.stA 4 4 [] [mkEvent Demo.evtY 1; mkEvent Demo.evtZ 3] /\
    calls r' = [] /\ world r' = tt.
Proof.
  apply (SmProcessEvents_all_unmatched Demo.cascade_tbl Tour.unmatched_start Demo.stA 4 4
           [mkEvent Demo.evtY 1; mkEvent Demo.evtX 2; mkEvent Demo.evtZ 3] [] 1).
  - view_by_evaluation.
  - cbn. repeat constructor; discriminate.
  - lia.
Defined.

Lemma SmProcessDeferredEvents_all_unmatched_witness :
  exists r' : tRun unit,
    _SmProcessDeferredEvents Demo.cascade_tbl Tour.stranded = Some (false, r') /\
    run_view r' Demo.stE 4 4 [] [] /\
    calls r' = [] /\ world r' = tt.
Proof.
  apply (SmProcessDeferredEvents_all_unmatched Demo.cascade_tbl Tour.stranded Demo.stE 4 4
           [] [mkEvent Demo.evtY 1; mkEvent Demo.evtZ 3]).
  - view_by_evaluation.
  - cbn. repeat constructor.
Defined.

Lemma SmProcessActiveEvents_takes_all_witness :
  exists (b : bool) (r' : tRun unit) (st' : tStateRef) (more : list tStateEvent),
    _SmProcessActiveEvents Demo.cascade_tbl Demo.cascade_start = Some (b, r') /\
    run_view r' st' 4 4 [] ([] ++ more) /\
    sublist more [mkEvent Demo.evtY 100; mkEvent Demo.evtZ 101; mkEvent Demo.evtW 102] /\
    sm_dequeue_ids (logged r') =
      sm_dequeue_ids (logged Demo.cascade_start) ++ [Demo.evtY; Demo.evtZ; Demo.evtW] /\
    (b = false -> st' = Demo.stA).
Proof.
  apply (SmProcessActiveEvents_takes_all Demo.cascade_tbl Demo.cascade_start Demo.stA 4 4
           [mkEvent Demo.evtY 100; mkEvent Demo.evtZ 101; mkEvent Demo.evtW 102] []).
  view_by_evaluation.
Defined.

Lemma queue_without_slots_witness :
  let ops := [OpEnqueue 1 10; OpDequeue; OpEnqueue 2 20; OpDequeue] in
  snd (run_ops ops (Demo.empty_queue 0)) = Demo.empty_queue 0 /\
  Forall (fun o => o = None) (fst (run_ops ops (Demo.empty_queue 0))).
Proof.
  intros ops. apply (queue_without_slots (Demo.empty_queue 0) ops); reflexivity.
Defined.
